(** * Ribbon slider of the VAPS demo site (demo1/scripts.js)

    A shallow embedding of the [RibbonSlider] class, of the
    [VisibilityController] listener that drives it, and of the part of the
    browser the class talks to: the class lists of the slide and dot
    elements, the progress-bar element and the window's table of timers.

    Modelling conventions.
    - A JavaScript number is [Int z] or [NaN]; the slider only ever adds,
      subtracts and takes remainders of integers, and [x % 0] is [NaN].
    - A [classList] is the ordered token list of the DOM; [add], [remove]
      and [toggle] follow the DOMTokenList operations of the same name.
    - The elements matched by '.ribbon-item', '.nav-dot' and
      '.progress-fill' are taken to be pairwise distinct elements.
    - Touch coordinates (clientX) are integers.
    - Timer handles are positive integers handed out in increasing order,
      one pool for setInterval and setTimeout, as in the HTML standard.
    - A method is a state transformer that completes normally or throws;
      the state reached when it throws is kept, as in JavaScript. *)

From Stdlib Require Import ZArith Lia Ascii.
From stdpp Require Import base list strings.

(** ** Configuration *)

Module CONFIG.
Definition SLIDER_INTERVAL : Z := 5000.
Definition SWIPE_THRESHOLD : Z := 50.
End CONFIG.

(** ** JavaScript numbers *)

Inductive number : Type :=
| Int (z : Z)
| NaN.

Definition js_add (a b : number) : number :=
  match a, b with
  | Int x, Int y => Int (x + y)
  | _, _ => NaN
  end.

Definition js_sub (a b : number) : number :=
  match a, b with
  | Int x, Int y => Int (x - y)
  | _, _ => NaN
  end.

(** [a % b]: the remainder has the sign of the dividend; [NaN] on a zero
    divisor. *)
Definition js_rem (a b : number) : number :=
  match a, b with
  | Int x, Int y => if (y =? 0)%Z then NaN else Int (Z.rem x y)
  | _, _ => NaN
  end.

Definition js_abs (a : number) : number :=
  match a with
  | Int x => Int (Z.abs x)
  | NaN => NaN
  end.

(** [a === b], [a < b] and [a > b]; every comparison with [NaN] is false. *)
Definition js_strict_eq (a b : number) : bool :=
  match a, b with
  | Int x, Int y => (x =? y)%Z
  | _, _ => false
  end.

Definition js_lt (a b : number) : bool :=
  match a, b with
  | Int x, Int y => (x <? y)%Z
  | _, _ => false
  end.

Definition js_gt (a b : number) : bool := js_lt b a.

Definition of_index (index : nat) : number := Int (Z.of_nat index).

(** ** Class lists *)

Abbreviation classList := (list string).

Module ClassList.
Definition contains (token : string) (cl : classList) : bool :=
  bool_decide (token ∈ cl).

Definition remove (tokens : list string) (cl : classList) : classList :=
  filter (λ t, t ∉ tokens) cl.

Definition add (token : string) (cl : classList) : classList :=
  if contains token cl then cl else cl ++ [token].

Definition toggle (token : string) (force : bool) (cl : classList)
  : classList :=
  if force then add token cl else remove [token] cl.
End ClassList.

(** ** The slider object and the window's timers *)

(** What a pending timer runs when it fires: the arrow function of
    [startAutoPlay], the arrow function of [restartProgressBar], or a
    callback of another component of the page. *)
Inductive callback : Type :=
| AutoAdvance
| ProgressFill
| Foreign.

#[global] Instance callback_eq_dec : EqDecision callback.
Proof. solve_decision. Defined.

Inductive exn : Type :=
| TypeError.

Record RibbonSlider : Type := mkRibbonSlider {
  currentSlide : number;
  slides : list classList;
  dots : list classList;
  totalSlides : number;
  autoPlayInterval : option positive;   (* null, or a timer handle *)
  progressBar : option string;          (* null, or the element with its
                                           style.animation *)
  touchStartX : number;
  touchEndX : number;
  (* the window's list of active timers and its next free handle *)
  timers : list (positive * callback);
  nextHandle : positive
}.

Definition set_currentSlide (v : number) (s : RibbonSlider) : RibbonSlider :=
  mkRibbonSlider v (slides s) (dots s) (totalSlides s) (autoPlayInterval s)
    (progressBar s) (touchStartX s) (touchEndX s) (timers s) (nextHandle s).

Definition set_slides (v : list classList) (s : RibbonSlider) : RibbonSlider :=
  mkRibbonSlider (currentSlide s) v (dots s) (totalSlides s)
    (autoPlayInterval s) (progressBar s) (touchStartX s) (touchEndX s)
    (timers s) (nextHandle s).

Definition set_dots (v : list classList) (s : RibbonSlider) : RibbonSlider :=
  mkRibbonSlider (currentSlide s) (slides s) v (totalSlides s)
    (autoPlayInterval s) (progressBar s) (touchStartX s) (touchEndX s)
    (timers s) (nextHandle s).

Definition set_autoPlayInterval (v : option positive) (s : RibbonSlider)
  : RibbonSlider :=
  mkRibbonSlider (currentSlide s) (slides s) (dots s) (totalSlides s) v
    (progressBar s) (touchStartX s) (touchEndX s) (timers s) (nextHandle s).

Definition set_progressBar (v : option string) (s : RibbonSlider)
  : RibbonSlider :=
  mkRibbonSlider (currentSlide s) (slides s) (dots s) (totalSlides s)
    (autoPlayInterval s) v (touchStartX s) (touchEndX s) (timers s)
    (nextHandle s).

Definition set_touchStartX (v : number) (s : RibbonSlider) : RibbonSlider :=
  mkRibbonSlider (currentSlide s) (slides s) (dots s) (totalSlides s)
    (autoPlayInterval s) (progressBar s) v (touchEndX s) (timers s)
    (nextHandle s).

Definition set_touchEndX (v : number) (s : RibbonSlider) : RibbonSlider :=
  mkRibbonSlider (currentSlide s) (slides s) (dots s) (totalSlides s)
    (autoPlayInterval s) (progressBar s) (touchStartX s) v (timers s)
    (nextHandle s).

Definition set_timers (v : list (positive * callback)) (s : RibbonSlider)
  : RibbonSlider :=
  mkRibbonSlider (currentSlide s) (slides s) (dots s) (totalSlides s)
    (autoPlayInterval s) (progressBar s) (touchStartX s) (touchEndX s) v
    (nextHandle s).

Definition set_nextHandle (v : positive) (s : RibbonSlider) : RibbonSlider :=
  mkRibbonSlider (currentSlide s) (slides s) (dots s) (totalSlides s)
    (autoPlayInterval s) (progressBar s) (touchStartX s) (touchEndX s)
    (timers s) v.

(** ** Methods as state transformers that may throw *)

Inductive completion (A : Type) : Type :=
| Normal (a : A)
| Throw (e : exn).
Arguments Normal {A} a.
Arguments Throw {A} e.

Definition M (A : Type) : Type := RibbonSlider → completion A * RibbonSlider.

Definition ret {A} (a : A) : M A := λ s, (Normal a, s).

Definition bind {A B} (m : M A) (k : A → M B) : M B :=
  λ s, match m s with
       | (Normal a, s') => k a s'
       | (Throw e, s') => (Throw e, s')
       end.

Definition throw {A} (e : exn) : M A := λ s, (Throw e, s).
Definition gets {A} (f : RibbonSlider → A) : M A := λ s, (Normal (f s), s).
Definition modify (f : RibbonSlider → RibbonSlider) : M unit :=
  λ s, (Normal tt, f s).

(** The state a method leaves behind, thrown or not. *)
Definition exec {A} (m : M A) (s : RibbonSlider) : RibbonSlider := (m s).2.
Definition outcome {A} (m : M A) (s : RibbonSlider) : completion A := (m s).1.

Declare Scope js_scope.
Delimit Scope js_scope with js.
Notation "'let*' x := m 'in' k" := (bind m (λ x, k))
  (at level 10, x name, m at level 100, k at level 200) : js_scope.
Notation "m ;; k" := (bind m (λ _, k))
  (at level 100, k at level 200, right associativity) : js_scope.
Bind Scope js_scope with M.
Local Open Scope js_scope.

(** *** Host functions *)

Definition fresh_timer (cb : callback) : M positive :=
  λ s, let id := nextHandle s in
       (Normal id,
        set_nextHandle (Pos.succ id) (set_timers (timers s ++ [(id, cb)]) s)).

Definition setInterval (cb : callback) : M positive := fresh_timer cb.
Definition setTimeout (cb : callback) : M positive := fresh_timer cb.

Definition clearInterval (id : positive) : M unit :=
  modify (λ s, set_timers (filter (λ t, t.1 ≠ id) (timers s)) s).

(** *** RibbonSlider *)

(** The two [forEach] callbacks of [goToSlide]. *)
Definition markSlide (slideIndex : number) (index : nat) (slide : classList)
  : classList :=
  let slide := ClassList.remove ["active"; "prev"; "next"] slide in
  if js_strict_eq (of_index index) slideIndex then
    ClassList.add "active" slide
  else if js_lt (of_index index) slideIndex then
    ClassList.add "prev" slide
  else
    ClassList.add "next" slide.

Definition markDot (slideIndex : number) (index : nat) (dot : classList)
  : classList :=
  ClassList.toggle "active" (js_strict_eq (of_index index) slideIndex) dot.

Definition goToSlide (slideIndex : number) : M unit :=
  modify (λ s, set_slides (imap (markSlide slideIndex) (slides s)) s) ;;
  modify (λ s, set_dots (imap (markDot slideIndex) (dots s)) s) ;;
  modify (set_currentSlide slideIndex).

Definition nextSlide : M unit :=
  let* cur := gets currentSlide in
  let* total := gets totalSlides in
  let next := js_rem (js_add cur (Int 1)) total in
  goToSlide next.

Definition prevSlide : M unit :=
  let* cur := gets currentSlide in
  let* total := gets totalSlides in
  let prev := js_rem (js_add (js_sub cur (Int 1)) total) total in
  goToSlide prev.

Definition startAutoPlay : M unit :=
  let* id := setInterval AutoAdvance in
  modify (set_autoPlayInterval (Some id)).

Definition stopAutoPlay : M unit :=
  let* handle := gets autoPlayInterval in
  match handle with
  | Some id => clearInterval id
  | None => ret tt
  end.

Definition restartProgressBar : M unit :=
  let* bar := gets progressBar in
  match bar with
  | None => throw TypeError
  | Some _ =>
      modify (set_progressBar (Some "none")) ;;
      let* _ := setTimeout ProgressFill in
      ret tt
  end.

Definition restartAutoPlay : M unit :=
  stopAutoPlay ;;
  startAutoPlay ;;
  restartProgressBar.

Definition handleSwipe : M unit :=
  let* startX := gets touchStartX in
  let* endX := gets touchEndX in
  let diff := js_sub startX endX in
  if js_gt (js_abs diff) (Int CONFIG.SWIPE_THRESHOLD) then
    (if js_gt diff (Int 0) then nextSlide else prevSlide) ;;
    restartAutoPlay
  else ret tt.

Definition handleTouchStart (clientX : Z) : M unit :=
  modify (set_touchStartX (Int clientX)).

Definition handleTouchEnd (clientX : Z) : M unit :=
  modify (set_touchEndX (Int clientX)) ;;
  handleSwipe.

Definition handleKeydown (key : string) : M unit :=
  if String.eqb key "ArrowLeft" then prevSlide ;; restartAutoPlay
  else if String.eqb key "ArrowRight" then nextSlide ;; restartAutoPlay
  else ret tt.

(** The click listener [bindEvents] puts on the dot at [index]. *)
Definition dotClick (index : nat) : M unit :=
  goToSlide (of_index index) ;;
  restartAutoPlay.

(** [bindEvents] only registers listeners; what they do when an event
    arrives is [dispatch] below. *)
Definition bindEvents : M unit := ret tt.

Definition init : M unit :=
  bindEvents ;;
  startAutoPlay.

(** The page as the constructor finds it. *)
Record Document : Type := mkDocument {
  ribbon_items : list classList;      (* querySelectorAll('.ribbon-item') *)
  nav_dots : list classList;          (* querySelectorAll('.nav-dot') *)
  progress_fill : option string;      (* querySelector('.progress-fill') *)
  active_timers : list (positive * callback);
  next_handle : positive
}.

Definition constructor (doc : Document) : completion unit * RibbonSlider :=
  init {| currentSlide := Int 0;
          slides := ribbon_items doc;
          dots := nav_dots doc;
          totalSlides := of_index (length (ribbon_items doc));
          autoPlayInterval := None;
          progressBar := progress_fill doc;
          touchStartX := Int 0;
          touchEndX := Int 0;
          timers := active_timers doc;
          nextHandle := next_handle doc |}.

(** *** VisibilityController *)

(** The 'visibilitychange' listener; [hidden] is [document.hidden]. *)
Definition visibilitychange (hidden : bool) : M unit :=
  if hidden then stopAutoPlay else startAutoPlay.

(** *** Timers firing and the event loop *)

Definition progressFillAnimation : string :=
  "progressFill 5000ms linear infinite".

Definition timerFire (id : positive) : M unit :=
  let* pending := gets timers in
  match (filter (λ t, t.1 = id) pending) with
  | (_, AutoAdvance) :: _ => nextSlide
  | (_, ProgressFill) :: _ =>
      clearInterval id ;;
      let* bar := gets progressBar in
      match bar with
      | None => throw TypeError
      | Some _ => modify (set_progressBar (Some progressFillAnimation))
      end
  | (_, Foreign) :: _ => ret tt
  | [] => ret tt
  end.

Inductive event : Type :=
| Click (dot : nat)
| Keydown (key : string)
| TouchStart (clientX : Z)
| TouchEnd (clientX : Z)
| VisibilityChange (hidden : bool)
| TimerFire (id : positive).

Definition dispatch (ev : event) : M unit :=
  match ev with
  | Click dot =>
      let* ds := gets dots in
      if bool_decide (dot < length ds) then dotClick dot else ret tt
  | Keydown key => handleKeydown key
  | TouchStart x => handleTouchStart x
  | TouchEnd x => handleTouchEnd x
  | VisibilityChange hidden => visibilitychange hidden
  | TimerFire id => timerFire id
  end.

(** ** Sequences of calls *)

Inductive call : Type :=
| GoToSlide (index : nat)
| NextSlide
| PrevSlide.

Definition run_call (c : call) : M unit :=
  match c with
  | GoToSlide index => goToSlide (of_index index)
  | NextSlide => nextSlide
  | PrevSlide => prevSlide
  end.

Fixpoint run_calls (cs : list call) : M unit :=
  match cs with
  | [] => ret tt
  | c :: cs => run_call c ;; run_calls cs
  end.

Fixpoint times (n : nat) (m : M unit) : M unit :=
  match n with
  | O => ret tt
  | S n => m ;; times n m
  end.

(** [goToSlide] is only called with the index of a dot ([bindEvents]) or
    with the result of a wraparound. *)
Definition from_dot (s : RibbonSlider) (c : call) : Prop :=
  match c with
  | GoToSlide index => index < length (dots s)
  | NextSlide | PrevSlide => True
  end.

(** ** Derived presentation state *)

Definition count_active (l : list classList) : nat :=
  length (filter (λ cl, ClassList.contains "active" cl = true) l).

(** Slide [k] is the one on show: the classes of every slide and of every
    dot are the ones [k] determines, and [currentSlide] is [k]. *)
Definition shows (s : RibbonSlider) (k : nat) : Prop :=
  currentSlide s = of_index k ∧
  (∀ i cl, slides s !! i = Some cl →
     ClassList.contains "active" cl = bool_decide (i = k) ∧
     ClassList.contains "prev" cl = bool_decide (i < k) ∧
     ClassList.contains "next" cl = bool_decide (k < i)) ∧
  (∀ i cl, dots s !! i = Some cl →
     ClassList.contains "active" cl = bool_decide (i = k)).

Definition deck_invariant (s : RibbonSlider) : Prop :=
  ∃ k, k < length (slides s) ∧ shows s k ∧
       count_active (slides s) = 1 ∧ count_active (dots s) = 1.

(** What the constructor establishes and every call keeps. *)
Definition well_formed (s : RibbonSlider) : Prop :=
  totalSlides s = of_index (length (slides s)) ∧
  ∃ c, currentSlide s = of_index c ∧ c < length (slides s).

(** The recurring advances the window still has scheduled. *)
Definition pending_advances (s : RibbonSlider) : nat :=
  length (filter (λ t, t.2 = AutoAdvance) (timers s)).

(** Every scheduled advance is the one the slider holds the handle of. *)
Definition owned (s : RibbonSlider) : Prop :=
  ∀ id, (id, AutoAdvance) ∈ timers s → autoPlayInterval s = Some id.

(** The class [markSlide] gives the slide at [index]. *)
Definition slideToken (slideIndex : number) (index : nat) : string :=
  if js_strict_eq (of_index index) slideIndex then "active"
  else if js_lt (of_index index) slideIndex then "prev"
  else "next".

(** The state [goToSlide slideIndex] leaves. *)
Definition shown (slideIndex : number) (s : RibbonSlider) : RibbonSlider :=
  set_currentSlide slideIndex
    (set_dots (imap (markDot slideIndex) (dots s))
       (set_slides (imap (markSlide slideIndex) (slides s)) s)).

(** The deck is the part of the state [goToSlide] writes. *)
Definition same_deck (s s' : RibbonSlider) : Prop :=
  currentSlide s' = currentSlide s ∧ slides s' = slides s ∧
  dots s' = dots s ∧ totalSlides s' = totalSlides s.

(** The rest: timers, progress bar and touch coordinates. *)
Definition same_rest (s s' : RibbonSlider) : Prop :=
  autoPlayInterval s' = autoPlayInterval s ∧ progressBar s' = progressBar s ∧
  touchStartX s' = touchStartX s ∧ touchEndX s' = touchEndX s ∧
  timers s' = timers s ∧ nextHandle s' = nextHandle s.

(** The index [nextSlide] and [prevSlide] compute. *)
Definition next_of (s : RibbonSlider) : number :=
  js_rem (js_add (currentSlide s) (Int 1)) (totalSlides s).

Definition prev_of (s : RibbonSlider) : number :=
  js_rem (js_add (js_sub (currentSlide s) (Int 1)) (totalSlides s))
    (totalSlides s).

(** What one event may do to the deck: nothing, or show the next slide, the
    previous slide or the slide of a dot. *)
Definition deck_step (s s' : RibbonSlider) : Prop :=
  same_deck s s' ∨
  ∃ k, same_deck (shown k s) s' ∧
       (k = next_of s ∨ k = prev_of s ∨
        ∃ d, d < length (dots s) ∧ k = of_index d).

(** The states the page can be in: the one the constructor leaves, and
    any state an event takes a reachable state to. *)
Inductive reachable (doc : Document) : RibbonSlider → Prop :=
| reach_new : reachable doc (constructor doc).2
| reach_event s ev :
    reachable doc s → reachable doc (exec (dispatch ev) s).



(** The classes other than the slider's own agree on two decks. *)
Definition same_foreign (l l' : list classList) (own : list string) : Prop :=
  ∀ i cl', l' !! i = Some cl' →
    ∃ cl, l !! i = Some cl ∧
          ∀ t, t ∉ own →
               ClassList.contains t cl' = ClassList.contains t cl.

(** The calls without an argument. *)
Definition is_goto (c : call) : bool :=
  match c with
  | GoToSlide _ => true
  | NextSlide | PrevSlide => false
  end.

(** The timers left when the interval the slider holds is cancelled. *)
Definition cancelled (s : RibbonSlider) : list (positive * callback) :=
  match autoPlayInterval s with
  | Some id => filter (λ t, t.1 ≠ id) (timers s)
  | None => timers s
  end.

(** Autoplay has been restarted between [s] and [s']: the interval held in
    [s] is cancelled, a new one is scheduled under the next free handle and
    held, and a progress bar, when there is one, is reset and given its
    timeout. *)
Definition timer_restarted (s s' : RibbonSlider) : Prop :=
  autoPlayInterval s' = Some (nextHandle s) ∧
  timers s'
  = cancelled s ++ [(nextHandle s, AutoAdvance)]
      ++ match progressBar s with
         | Some _ => [(Pos.succ (nextHandle s), ProgressFill)]
         | None => []
         end ∧
  progressBar s'
  = match progressBar s with
    | Some _ => Some "none"
    | None => None
    end.

(** ** Timer discipline *)

(** An event is well timed when the page does not become visible while an
    advance is still scheduled. *)
Definition well_timed (s : RibbonSlider) (ev : event) : Prop :=
  ev = VisibilityChange false → pending_advances s = 0.

(** At most one advance is scheduled, and the slider holds its handle. *)
Definition exclusive (s : RibbonSlider) : Prop :=
  owned s ∧ pending_advances s ≤ 1.

Inductive disciplined (doc : Document) : RibbonSlider → Prop :=
| disciplined_new : disciplined doc (constructor doc).2
| disciplined_event s ev :
    disciplined doc s → well_timed s ev →
    disciplined doc (exec (dispatch ev) s).

(** ** ScrollAnimations *)

(** The elements of the page are a list of class lists; an entry of the
    IntersectionObserver names its target by position in that list. *)
Record IntersectionObserverEntry : Type := mkEntry {
  target : nat;
  isIntersecting : bool
}.

Module ScrollAnimations.
(** The body of the [entries.forEach] arrow function. *)
Definition reveal (entry : IntersectionObserverEntry) (cl : classList)
  : classList :=
  if isIntersecting entry then ClassList.add "revealed" cl
  else ClassList.remove ["revealed"] cl.

(** The callback [initScrollObserver] hands to the observer. *)
Definition callback (entries : list IntersectionObserverEntry)
    (elements : list classList) : list classList :=
  foldl (λ els entry, alter (reveal entry) (target entry) els)
    elements entries.
End ScrollAnimations.

(** ** CounterAnimations *)

(** Strings are the UTF-8 bytes of the text; the patterns the code searches
    for are ASCII, so searching bytes and searching UTF-16 code units
    agree. *)
Module JSString.
Fixpoint skip (n : nat) (text : string) : string :=
  match n, text with
  | S n, String _ rest => skip n rest
  | _, _ => text
  end.

(** Does [text] start with [pattern]? *)
Fixpoint startsWith (pattern text : string) {struct pattern} : bool :=
  match pattern, text with
  | EmptyString, _ => true
  | String _ _, EmptyString => false
  | String a pattern, String b text =>
      if Ascii.eqb a b then startsWith pattern text else false
  end.

(** [text.includes(pattern)]. *)
Fixpoint includes (pattern text : string) {struct text} : bool :=
  if startsWith pattern text then true
  else match text with
       | EmptyString => false
       | String _ rest => includes pattern rest
       end.

(** [text.replace(pattern, replacement)] for a string pattern: the first
    occurrence only.  The replacement is taken literally; the source only
    ever passes the empty string. *)
Fixpoint replace (pattern replacement text : string) {struct text} : string :=
  if startsWith pattern text then
    replacement +:+ skip (String.length pattern) text
  else match text with
       | EmptyString => EmptyString
       | String c rest => String c (replace pattern replacement rest)
       end.
End JSString.

Record CounterText : Type := mkCounterText {
  targetNumber : number;
  suffix : string
}.

(** [parseInt] is the host's; the method is modelled for any. *)
Definition parseCounterText (parseInt : string → number) (text : string)
  : CounterText :=
  if JSString.includes "M+" text then
    {| targetNumber := parseInt (JSString.replace "M+" "" text);
       suffix := "M+" |}
  else if JSString.includes "+" text then
    {| targetNumber := parseInt (JSString.replace "+" "" text);
       suffix := "+" |}
  else
    {| targetNumber := parseInt text; suffix := "" |}.

(** ** Sample pages *)

Definition demo_page : Document :=
  {| ribbon_items := [["ribbon-item"; "active"]; ["ribbon-item"; "next"];
                      ["ribbon-item"; "next"]];
     nav_dots := [["nav-dot"; "active"]; ["nav-dot"]; ["nav-dot"]];
     progress_fill := Some "";
     active_timers := [];
     next_handle := 1%positive |}.

Definition page_without_active : Document :=
  {| ribbon_items := [["ribbon-item"]; ["ribbon-item"]; ["ribbon-item"]];
     nav_dots := [["nav-dot"]; ["nav-dot"]; ["nav-dot"]];
     progress_fill := Some "";
     active_timers := [];
     next_handle := 1%positive |}.

Definition five_slides : Document :=
  {| ribbon_items := [["ribbon-item"; "active"]; ["ribbon-item"; "next"];
                      ["ribbon-item"; "next"]; ["ribbon-item"; "next"];
                      ["ribbon-item"; "next"]];
     nav_dots := [["nav-dot"; "active"]; ["nav-dot"]; ["nav-dot"];
                  ["nav-dot"]; ["nav-dot"]];
     progress_fill := Some "";
     active_timers := [];
     next_handle := 1%positive |}.

Definition page_without_slides : Document :=
  {| ribbon_items := [];
     nav_dots := [["nav-dot"; "active"]; ["nav-dot"]];
     progress_fill := Some "";
     active_timers := [];
     next_handle := 1%positive |}.

Definition page_without_progress : Document :=
  {| ribbon_items := [["ribbon-item"; "active"]; ["ribbon-item"; "next"];
                      ["ribbon-item"; "next"]];
     nav_dots := [["nav-dot"; "active"]; ["nav-dot"]; ["nav-dot"]];
     progress_fill := None;
     active_timers := [];
     next_handle := 1%positive |}.

Definition page_with_extra_dots : Document :=
  {| ribbon_items := [["ribbon-item"; "active"]; ["ribbon-item"; "next"]];
     nav_dots := [["nav-dot"; "active"]; ["nav-dot"]; ["nav-dot"];
                  ["nav-dot"]];
     progress_fill := Some "";
     active_timers := [];
     next_handle := 1%positive |}.

(** * Properties *)

(** ** Class lists *)

Section ClassListFacts.
Import ClassList.
Implicit Types (t u : string) (ts : list string) (cl : classList).

Lemma contains_true t cl : contains t cl = true ↔ t ∈ cl.
Proof. unfold contains. apply bool_decide_eq_true. Qed.

Lemma contains_remove t ts cl :
  contains t (remove ts cl) = contains t cl && bool_decide (t ∉ ts).
Proof.
  unfold contains, remove.
  apply eq_true_iff_eq.
  rewrite andb_true_iff, !bool_decide_eq_true, list_elem_of_filter.
  tauto.
Qed.

Lemma contains_add t u cl :
  contains t (add u cl) = contains t cl || bool_decide (t = u).
Proof.
  unfold add. destruct (contains u cl) eqn:Hu.
  - apply eq_true_iff_eq.
    rewrite orb_true_iff, bool_decide_eq_true, !contains_true.
    apply contains_true in Hu. split; [tauto|]. intros [?| ->]; done.
  - unfold contains. apply eq_true_iff_eq.
    rewrite orb_true_iff, !bool_decide_eq_true, elem_of_app,
      list_elem_of_singleton.
    tauto.
Qed.

Lemma remove_remove ts cl : remove ts (remove ts cl) = remove ts cl.
Proof.
  unfold remove.
  by apply (list_filter_filter_l (λ t, t ∉ ts) (λ t, t ∉ ts)).
Qed.

Lemma add_remove t ts cl : t ∈ ts → add t (remove ts cl) = remove ts cl ++ [t].
Proof.
  intros Ht. unfold add.
  rewrite contains_remove, (bool_decide_eq_false_2 (t ∉ ts)) by tauto.
  by rewrite andb_false_r.
Qed.

Lemma remove_add_remove t ts cl :
  t ∈ ts → remove ts (add t (remove ts cl)) = remove ts cl.
Proof.
  intros Ht. rewrite add_remove by done.
  pose proof (remove_remove ts cl) as Hrr. unfold remove in *.
  rewrite filter_app, Hrr.
  rewrite filter_singleton_False by tauto.
  apply app_nil_r.
Qed.

Lemma add_add t cl : add t (add t cl) = add t cl.
Proof.
  unfold add at 1.
  by rewrite contains_add, bool_decide_eq_true_2, orb_true_r.
Qed.

Lemma toggle_toggle t b cl : toggle t b (toggle t b cl) = toggle t b cl.
Proof. destruct b; simpl; [apply add_add | apply remove_remove]. Qed.

Lemma contains_toggle t b cl : contains t (toggle t b cl) = b.
Proof.
  destruct b; simpl.
  - by rewrite contains_add, bool_decide_eq_true_2, orb_true_r.
  - rewrite contains_remove, (bool_decide_eq_false_2 (t ∉ [t])).
    + apply andb_false_r.
    + intros H. apply H, list_elem_of_singleton. done.
Qed.
End ClassListFacts.

(** ** Running methods *)

Lemma exec_bind {A B} (m : M A) (k : A → M B) (s : RibbonSlider) (a : A) :
  outcome m s = Normal a → bind m k s = k a (exec m s).
Proof.
  unfold outcome, exec, bind. destruct (m s) as [[?|?] ?]; simpl; congruence.
Qed.

(** ** goToSlide *)

Lemma goToSlide_eq slideIndex s :
  goToSlide slideIndex s = (Normal tt, shown slideIndex s).
Proof. reflexivity. Qed.

Lemma slideToken_in slideIndex index :
  slideToken slideIndex index ∈ ["active"; "prev"; "next"].
Proof.
  unfold slideToken.
  destruct (js_strict_eq _ _); [|destruct (js_lt _ _)];
    rewrite !elem_of_cons; tauto.
Qed.

Lemma markSlide_eq slideIndex index slide :
  markSlide slideIndex index slide =
  ClassList.remove ["active"; "prev"; "next"] slide
    ++ [slideToken slideIndex index].
Proof.
  pose proof (slideToken_in slideIndex index) as Hin.
  unfold markSlide, slideToken in *.
  destruct (js_strict_eq _ _); [|destruct (js_lt _ _)];
    by apply add_remove.
Qed.

Lemma contains_markSlide t slideIndex index slide :
  t ∈ ["active"; "prev"; "next"] →
  ClassList.contains t (markSlide slideIndex index slide)
  = bool_decide (t = slideToken slideIndex index).
Proof.
  intros Ht. rewrite markSlide_eq.
  apply eq_true_iff_eq.
  rewrite contains_true, elem_of_app, list_elem_of_singleton,
    bool_decide_eq_true.
  rewrite <- contains_true, contains_remove, andb_true_iff,
    bool_decide_eq_true.
  tauto.
Qed.

Lemma markSlide_idem slideIndex index slide :
  markSlide slideIndex index (markSlide slideIndex index slide)
  = markSlide slideIndex index slide.
Proof.
  pose proof (slideToken_in slideIndex index) as Hin.
  rewrite (markSlide_eq _ _ (markSlide _ _ _)), markSlide_eq.
  rewrite <- (add_remove _ _ slide Hin).
  by rewrite remove_add_remove, add_remove.
Qed.

Lemma markDot_idem slideIndex index dot :
  markDot slideIndex index (markDot slideIndex index dot)
  = markDot slideIndex index dot.
Proof. apply toggle_toggle. Qed.

Lemma imap_idem {A} (f : nat → A → A) (l : list A) :
  (∀ i x, f i (f i x) = f i x) → imap f (imap f l) = imap f l.
Proof.
  intros Hf. apply list_eq. intros i.
  rewrite !list_lookup_imap. destruct (l !! i); simpl; by rewrite ?Hf.
Qed.

Lemma shown_idem slideIndex s :
  shown slideIndex (shown slideIndex s) = shown slideIndex s.
Proof.
  unfold shown, set_currentSlide, set_dots, set_slides; simpl.
  rewrite (imap_idem (markSlide slideIndex)) by apply markSlide_idem.
  rewrite (imap_idem (markDot slideIndex)) by apply markDot_idem.
  reflexivity.
Qed.

Lemma slideToken_of_index k index :
  slideToken (of_index k) index =
  if decide (index = k) then "active"
  else if decide (index < k) then "prev" else "next".
Proof.
  unfold slideToken, of_index, js_strict_eq, js_lt.
  destruct (Z.eqb_spec (Z.of_nat index) (Z.of_nat k)) as [He|He].
  - rewrite decide_True by lia. done.
  - rewrite decide_False by lia.
    destruct (Z.ltb_spec (Z.of_nat index) (Z.of_nat k)).
    + rewrite decide_True by lia. done.
    + rewrite decide_False by lia. done.
Qed.

Lemma count_active_unique (l : list classList) (k : nat) :
  k < length l →
  (∀ i cl, l !! i = Some cl →
     ClassList.contains "active" cl = bool_decide (i = k)) →
  count_active l = 1.
Proof.
  unfold count_active. revert k.
  induction l as [|cl l IH]; intros k Hk Hl; simpl in Hk; [lia|].
  pose proof (Hl 0 cl eq_refl) as H0.
  destruct k as [|k].
  - rewrite filter_cons_True by (rewrite H0; by apply bool_decide_eq_true).
    simpl. f_equal.
    assert (Hnone : ∀ x, x ∈ l → ClassList.contains "active" x ≠ true).
    { intros x [i Hi]%list_elem_of_lookup.
      rewrite (Hl (S i) x Hi).
      rewrite bool_decide_eq_false_2 by lia. done. }
    clear -Hnone. induction l as [|x l IHl]; [done|].
    rewrite filter_cons_False by (apply Hnone; left).
    apply IHl. intros y Hy. apply Hnone. by right.
  - rewrite filter_cons_False.
    + apply (IH k); [lia|]. intros i x Hi.
      rewrite (Hl (S i) x Hi). apply bool_decide_ext. lia.
    + rewrite H0. rewrite bool_decide_eq_false_2 by lia. done.
Qed.

Lemma count_active_none (l : list classList) :
  (∀ i cl, l !! i = Some cl → ClassList.contains "active" cl = false) →
  count_active l = 0.
Proof.
  unfold count_active. intros Hl.
  induction l as [|x l IH]; [done|].
  rewrite filter_cons_False.
  - apply IH. intros i cl Hi. apply (Hl (S i) cl Hi).
  - rewrite (Hl 0 x eq_refl). done.
Qed.

Lemma shown_shows (k : nat) (s : RibbonSlider) :
  shows (shown (of_index k) s) k.
Proof.
  unfold shows, shown; simpl. split; [done|]. split.
  - intros i cl. rewrite list_lookup_imap.
    destruct (slides s !! i) as [x|]; simpl; [|done].
    intros [= <-].
    rewrite !contains_markSlide by (rewrite !elem_of_cons; tauto).
    rewrite slideToken_of_index.
    repeat split; apply bool_decide_ext;
      repeat case_decide; split; (done || lia).
  - intros i cl. rewrite list_lookup_imap.
    destruct (dots s !! i) as [x|]; simpl; [|done].
    intros [= <-]. unfold markDot. rewrite contains_toggle.
    unfold of_index, js_strict_eq.
    destruct (Z.eqb_spec (Z.of_nat i) (Z.of_nat k)).
    + rewrite bool_decide_eq_true_2 by lia. done.
    + rewrite bool_decide_eq_false_2 by lia. done.
Qed.

Lemma shown_invariant (k : nat) (s : RibbonSlider) :
  k < length (slides s) → k < length (dots s) →
  deck_invariant (shown (of_index k) s).
Proof.
  intros Hs Hd. exists k.
  pose proof (shown_shows k s) as Hshow.
  assert (Hls : length (slides (shown (of_index k) s)) = length (slides s))
    by apply length_imap.
  assert (Hld : length (dots (shown (of_index k) s)) = length (dots s))
    by apply length_imap.
  destruct Hshow as (Hc & Hsl & Hdt).
  split; [lia|]. split; [done|]. split.
  - apply (count_active_unique _ k); [lia|].
    intros i cl Hi. by destruct (Hsl i cl Hi).
  - apply (count_active_unique _ k); [lia|]. done.
Qed.

(** ** nextSlide and prevSlide *)

Lemma nextSlide_goTo s : nextSlide s = (Normal tt, shown (next_of s) s).
Proof. reflexivity. Qed.

Lemma prevSlide_goTo s : prevSlide s = (Normal tt, shown (prev_of s) s).
Proof. reflexivity. Qed.

Lemma next_index (c N : nat) :
  1 ≤ N →
  js_rem (js_add (of_index c) (Int 1)) (of_index N)
  = of_index ((c + 1) mod N).
Proof.
  intros HN. unfold of_index, js_add, js_rem.
  destruct (Z.eqb_spec (Z.of_nat N) 0); [lia|].
  f_equal. rewrite Z.rem_mod_nonneg by lia.
  rewrite Nat2Z.inj_mod. f_equal. lia.
Qed.

Lemma prev_index (c N : nat) :
  1 ≤ N →
  js_rem (js_add (js_sub (of_index c) (Int 1)) (of_index N)) (of_index N)
  = of_index ((c + N - 1) mod N).
Proof.
  intros HN. unfold of_index, js_add, js_sub, js_rem.
  destruct (Z.eqb_spec (Z.of_nat N) 0); [lia|].
  f_equal. rewrite Z.rem_mod_nonneg by lia.
  rewrite Nat2Z.inj_mod. f_equal. lia.
Qed.

Lemma nextSlide_eq s c N :
  currentSlide s = of_index c → totalSlides s = of_index N → 1 ≤ N →
  nextSlide s = (Normal tt, shown (of_index ((c + 1) mod N)) s).
Proof.
  intros Hc HN Hpos.
  rewrite nextSlide_goTo. unfold next_of. by rewrite Hc, HN, next_index.
Qed.

Lemma prevSlide_eq s c N :
  currentSlide s = of_index c → totalSlides s = of_index N → 1 ≤ N →
  prevSlide s = (Normal tt, shown (of_index ((c + N - 1) mod N)) s).
Proof.
  intros Hc HN Hpos.
  rewrite prevSlide_goTo. unfold prev_of. by rewrite Hc, HN, prev_index.
Qed.

(** ** Frames: what a method leaves alone *)

Lemma same_deck_refl s : same_deck s s.
Proof. by repeat split. Qed.

Lemma same_deck_trans s1 s2 s3 :
  same_deck s1 s2 → same_deck s2 s3 → same_deck s1 s3.
Proof. unfold same_deck. intuition congruence. Qed.

Lemma well_formed_same_deck s s' :
  same_deck s s' → well_formed s → well_formed s'.
Proof.
  intros (Hc & Hs & _ & Ht). unfold well_formed. by rewrite Hc, Hs, Ht.
Qed.

Lemma deck_invariant_same_deck s s' :
  same_deck s s' → deck_invariant s → deck_invariant s'.
Proof.
  intros (Hc & Hs & Hd & Ht). unfold deck_invariant, shows.
  by rewrite Hc, Hs, Hd.
Qed.

Lemma shown_well_formed k s :
  well_formed s → k < length (slides s) → well_formed (shown (of_index k) s).
Proof.
  intros [Ht _] Hk. unfold well_formed, shown; simpl.
  rewrite length_imap. split; [done|]. by exists k.
Qed.

Lemma startAutoPlay_eq s :
  startAutoPlay s
  = (Normal tt,
     set_autoPlayInterval (Some (nextHandle s))
       (set_nextHandle (Pos.succ (nextHandle s))
          (set_timers (timers s ++ [(nextHandle s, AutoAdvance)]) s))).
Proof. reflexivity. Qed.

Lemma stopAutoPlay_eq s :
  stopAutoPlay s
  = (Normal tt,
     match autoPlayInterval s with
     | Some id => set_timers (filter (λ t, t.1 ≠ id) (timers s)) s
     | None => s
     end).
Proof. unfold stopAutoPlay, bind, gets. by destruct (autoPlayInterval s). Qed.

(** [restartAutoPlay] has stopped and started the timer by the time it
    reaches the progress bar, present or not. *)
Lemma restartAutoPlay_eq s :
  restartAutoPlay s
  = restartProgressBar (exec startAutoPlay (exec stopAutoPlay s)).
Proof.
  unfold restartAutoPlay.
  rewrite (exec_bind stopAutoPlay _ s tt)
    by (unfold outcome; by rewrite stopAutoPlay_eq).
  by rewrite (exec_bind startAutoPlay _ _ tt).
Qed.

Lemma restartProgressBar_null s :
  progressBar s = None → restartProgressBar s = (Throw TypeError, s).
Proof. intros H. unfold restartProgressBar, bind, gets. by rewrite H. Qed.

Lemma restartProgressBar_some s a :
  progressBar s = Some a →
  restartProgressBar s
  = (Normal tt,
     set_nextHandle (Pos.succ (nextHandle s))
       (set_timers (timers s ++ [(nextHandle s, ProgressFill)])
          (set_progressBar (Some "none") s))).
Proof. intros H. unfold restartProgressBar, bind, gets. by rewrite H. Qed.

Lemma startAutoPlay_deck s : same_deck s (exec startAutoPlay s).
Proof. by repeat split. Qed.

Lemma stopAutoPlay_deck s : same_deck s (exec stopAutoPlay s).
Proof.
  unfold exec. rewrite stopAutoPlay_eq.
  destruct (autoPlayInterval s); by repeat split.
Qed.

Lemma restartProgressBar_deck s : same_deck s (exec restartProgressBar s).
Proof.
  unfold exec. destruct (progressBar s) as [a|] eqn:Hb.
  - by rewrite (restartProgressBar_some s a).
  - rewrite restartProgressBar_null by done. apply same_deck_refl.
Qed.

Lemma restartAutoPlay_deck s : same_deck s (exec restartAutoPlay s).
Proof.
  unfold exec at 1. rewrite restartAutoPlay_eq.
  eapply same_deck_trans; [apply stopAutoPlay_deck|].
  eapply same_deck_trans; [apply startAutoPlay_deck|].
  apply restartProgressBar_deck.
Qed.

(** ** Events keep the deck well formed *)

Lemma bind_normal {B} (m : M unit) (k : unit → M B) s s1 :
  m s = (Normal tt, s1) → bind m k s = k tt s1.
Proof. intros H. unfold bind. by rewrite H. Qed.

(** Run the slide change at the head of a handler: [goToSlide],
    [nextSlide] and [prevSlide] never throw, so the handler goes on with
    the state they leave. *)
Ltac slide_step :=
  first [ rewrite (bind_normal _ _ _ _ (goToSlide_eq _ _))
        | rewrite (bind_normal _ _ _ _ (nextSlide_goTo _))
        | rewrite (bind_normal _ _ _ _ (prevSlide_goTo _)) ].

Lemma handleSwipe_eq s a b :
  touchStartX s = Int a → touchEndX s = Int b →
  handleSwipe s
  = if (CONFIG.SWIPE_THRESHOLD <? Z.abs (a - b))%Z then
      ((if (0 <? a - b)%Z then nextSlide else prevSlide) ;; restartAutoPlay) s
    else (Normal tt, s).
Proof.
  intros Ha Hb. unfold handleSwipe, bind at 1 2, gets. rewrite Ha, Hb.
  unfold js_gt, js_sub, js_abs, js_lt.
  by destruct (_ <? Z.abs _)%Z.
Qed.

Lemma step_same s s' : same_deck s s' → deck_step s s'.
Proof. by left. Qed.

Lemma step_next s s' : same_deck (shown (next_of s) s) s' → deck_step s s'.
Proof. intros Hs. right. exists (next_of s). tauto. Qed.

Lemma step_prev s s' : same_deck (shown (prev_of s) s) s' → deck_step s s'.
Proof. intros Hs. right. exists (prev_of s). tauto. Qed.

Lemma step_dot s s' d :
  d < length (dots s) → same_deck (shown (of_index d) s) s' → deck_step s s'.
Proof. intros Hd Hs. right. exists (of_index d). split; [done|]. eauto. Qed.

Lemma dispatch_step ev s : deck_step s (exec (dispatch ev) s).
Proof.
  destruct ev as [d|key|x|x|hidden|id]; unfold exec, dispatch.
  - unfold bind, gets. case_bool_decide as Hd; [|apply step_same, same_deck_refl].
    apply (step_dot _ _ d Hd).
    unfold dotClick. slide_step.
    apply restartAutoPlay_deck.
  - unfold handleKeydown.
    destruct (String.eqb key "ArrowLeft");
      [|destruct (String.eqb key "ArrowRight")].
    + apply step_prev. slide_step.
      apply restartAutoPlay_deck.
    + apply step_next. slide_step.
      apply restartAutoPlay_deck.
    + apply step_same, same_deck_refl.
  - apply step_same. by repeat split.
  - unfold handleTouchEnd.
    rewrite (bind_normal _ _ s (set_touchEndX (Int x) s) eq_refl).
    set (s1 := set_touchEndX (Int x) s).
    unfold handleSwipe, bind at 1 2, gets.
    destruct (js_gt _ _); [|apply step_same; by repeat split].
    destruct (js_gt _ _).
    + apply step_next. slide_step.
      apply (restartAutoPlay_deck (shown (next_of s1) s1)).
    + apply step_prev. slide_step.
      apply (restartAutoPlay_deck (shown (prev_of s1) s1)).
  - apply step_same.
    destruct hidden; [apply stopAutoPlay_deck|apply startAutoPlay_deck].
  - unfold timerFire, bind at 1, gets.
    destruct (filter _ (timers s)) as [|[? [| |]] ?].
    + apply step_same, same_deck_refl.
    + apply step_next. rewrite nextSlide_goTo. apply same_deck_refl.
    + apply step_same. unfold bind, clearInterval, modify, gets; simpl.
      destruct (progressBar s); by repeat split.
    + apply step_same, same_deck_refl.
Qed.

Lemma deck_step_sizes s s' :
  deck_step s s' →
  length (slides s') = length (slides s) ∧ length (dots s') = length (dots s).
Proof.
  intros [(_ & -> & -> & _)|(k & (_ & -> & -> & _) & _)]; [done|].
  simpl. by rewrite !length_imap.
Qed.

Lemma deck_step_well_formed s s' :
  well_formed s → length (dots s) = length (slides s) →
  deck_step s s' → well_formed s'.
Proof.
  intros Hwf Hdots [Hsame|(k & Hsame & Hk)];
    [by apply (well_formed_same_deck s)|].
  apply (well_formed_same_deck _ _ Hsame).
  pose proof Hwf as (Ht & c & Hc & Hlt).
  assert (Hmod : ∀ n, n mod length (slides s) < length (slides s))
    by (intros n; apply Nat.mod_upper_bound; lia).
  destruct Hk as [->|[->|(d & Hd & ->)]].
  - unfold next_of. rewrite Hc, Ht, next_index by lia.
    by apply shown_well_formed.
  - unfold prev_of. rewrite Hc, Ht, prev_index by lia.
    by apply shown_well_formed.
  - apply shown_well_formed; [done|lia].
Qed.

Lemma constructor_eq doc :
  constructor doc
  = (Normal tt,
     {| currentSlide := Int 0;
        slides := ribbon_items doc;
        dots := nav_dots doc;
        totalSlides := of_index (length (ribbon_items doc));
        autoPlayInterval := Some (next_handle doc);
        progressBar := progress_fill doc;
        touchStartX := Int 0;
        touchEndX := Int 0;
        timers := active_timers doc ++ [(next_handle doc, AutoAdvance)];
        nextHandle := Pos.succ (next_handle doc) |}).
Proof. reflexivity. Qed.

Lemma reachable_sizes doc s :
  reachable doc s →
  length (slides s) = length (ribbon_items doc) ∧
  length (dots s) = length (nav_dots doc).
Proof.
  induction 1 as [|s ev _ [IHs IHd]]; [by rewrite constructor_eq|].
  destruct (deck_step_sizes _ _ (dispatch_step ev s)) as [-> ->]. done.
Qed.

Lemma reachable_well_formed doc s :
  1 ≤ length (ribbon_items doc) →
  length (nav_dots doc) = length (ribbon_items doc) →
  reachable doc s → well_formed s.
Proof.
  intros HN Hdots Hr.
  induction Hr as [|s ev Hr IH].
  - rewrite constructor_eq. split; [done|]. exists 0. split; [done|simpl; lia].
  - destruct (reachable_sizes doc s Hr) as [Hls Hld].
    apply (deck_step_well_formed s); [done|lia|apply dispatch_step].
Qed.

(** ** Sequences of calls *)

Lemma run_call_eq c s :
  ∃ k, run_call c s = (Normal tt, shown k s) ∧
       (k = next_of s ∨ k = prev_of s ∨
        ∃ d, c = GoToSlide d ∧ k = of_index d).
Proof.
  destruct c as [d| |]; simpl.
  - exists (of_index d). split; [apply goToSlide_eq|]. eauto.
  - exists (next_of s). split; [apply nextSlide_goTo|]. eauto.
  - exists (prev_of s). split; [apply prevSlide_goTo|]. eauto.
Qed.

Lemma run_call_shown c s :
  well_formed s → length (dots s) = length (slides s) → from_dot s c →
  ∃ k, k < length (slides s) ∧ run_call c s = (Normal tt, shown (of_index k) s).
Proof.
  intros (Ht & n & Hn & Hlt) Hdots Hc.
  assert (Hmod : ∀ n, n mod length (slides s) < length (slides s))
    by (intros m; apply Nat.mod_upper_bound; lia).
  destruct c as [d| |]; simpl in *.
  - exists d. split; [lia|apply goToSlide_eq].
  - exists ((n + 1) mod length (slides s)). split; [apply Hmod|].
    apply (nextSlide_eq s n (length (slides s))); [done|done|lia].
  - exists ((n + length (slides s) - 1) mod length (slides s)).
    split; [apply Hmod|].
    apply (prevSlide_eq s n (length (slides s))); [done|done|lia].
Qed.

Lemma run_calls_invariant cs s :
  well_formed s → length (dots s) = length (slides s) →
  Forall (from_dot s) cs →
  cs ≠ [] ∨ deck_invariant s →
  outcome (run_calls cs) s = Normal tt ∧
  deck_invariant (exec (run_calls cs) s).
Proof.
  revert s. induction cs as [|c cs IH]; intros s Hwf Hdots Hcs Hinit.
  - split; [done|]. by destruct Hinit.
  - apply Forall_cons in Hcs as [Hc Hcs].
    destruct (run_call_shown c s Hwf Hdots Hc) as (k & Hk & Hrun).
    unfold outcome, exec. simpl. rewrite (bind_normal _ _ _ _ Hrun).
    assert (Hls : length (slides (shown (of_index k) s)) = length (slides s))
      by apply length_imap.
    assert (Hld : length (dots (shown (of_index k) s)) = length (dots s))
      by apply length_imap.
    apply IH.
    + by apply shown_well_formed.
    + lia.
    + eapply Forall_impl; [exact Hcs|].
      intros [d| |]; unfold from_dot; [by rewrite Hld|done|done].
    + right. apply shown_invariant; lia.
Qed.

Lemma run_calls_last cs s :
  cs ≠ [] →
  ∃ k s1, run_calls cs s = (Normal tt, shown k s1).
Proof.
  revert s. induction cs as [|c cs IH]; intros s Hne; [done|].
  destruct (run_call_eq c s) as (k & Hrun & _).
  simpl. rewrite (bind_normal _ _ _ _ Hrun).
  destruct cs as [|c' cs]; [by exists k, s|].
  by apply IH.
Qed.

(** ** Deck invariant *)

(** C1, as the specification states it, fails in two ways.  The
    constructor does not call goToSlide: on a page whose markup gives no
    slide the class 'active', the state it leaves is reachable and has no
    active slide.  And goToSlide takes any index: goToSlide(7) on a page
    with three slides leaves no slide active. *)
Lemma slider_invariant_needs_calls :
  let s := (constructor page_without_active).2 in
  (reachable page_without_active s ∧
   length (slides s) = 3 ∧ length (dots s) = 3 ∧
   count_active (slides (exec (run_calls []) s)) = 0 ∧
   ¬ deck_invariant (exec (run_calls []) s)) ∧
  (count_active
     (slides (exec (run_calls [GoToSlide 7]) (constructor demo_page).2)) = 0 ∧
   ¬ deck_invariant (exec (run_calls [GoToSlide 7]) (constructor demo_page).2)).
Proof.
  split.
  - split; [apply reach_new|]. split; [done|]. split; [done|].
    split; [by vm_compute|].
    intros (k & _ & _ & Hone & _). vm_compute in Hone. discriminate Hone.
  - split; [by vm_compute|].
    intros (k & _ & _ & Hone & _). vm_compute in Hone. discriminate Hone.
Qed.

(** C1, amended. For a slider built from a page with at least one slide
    and one dot per slide, take any reachable state and run any sequence
    of goToSlide (with the index of a dot, so in 0..N-1), nextSlide and
    prevSlide calls.  As soon as one call has run (or with no call at all,
    when the state already had it, as the markup of the page may provide),
    exactly one slide carries 'active', its index is currentSlide, the
    slides before it carry 'prev', the slides after it carry 'next', and
    exactly the dot at currentSlide carries 'active'. No call throws. *)
Theorem slider_invariant (doc : Document) (s : RibbonSlider) (cs : list call) :
  1 ≤ length (ribbon_items doc) →
  length (nav_dots doc) = length (ribbon_items doc) →
  reachable doc s →
  Forall (from_dot s) cs →
  cs ≠ [] ∨ deck_invariant s →
  outcome (run_calls cs) s = Normal tt ∧
  deck_invariant (exec (run_calls cs) s).
Proof.
  intros HN Hdots Hr Hcs Hinit.
  destruct (reachable_sizes doc s Hr) as [Hls Hld].
  apply run_calls_invariant; [|lia|done|done].
  by apply (reachable_well_formed doc).
Qed.

(** Once the deck satisfies the invariant, every event keeps it. *)
Lemma deck_step_invariant s s' :
  well_formed s → length (dots s) = length (slides s) →
  deck_step s s' → deck_invariant s → deck_invariant s'.
Proof.
  intros Hwf Hdots [Hsame|(k & Hsame & Hk)] Hinv;
    [by apply (deck_invariant_same_deck s)|].
  apply (deck_invariant_same_deck _ _ Hsame).
  pose proof Hwf as (Ht & c & Hc & Hlt).
  assert (Hmod : ∀ n, n mod length (slides s) < length (slides s))
    by (intros n; apply Nat.mod_upper_bound; lia).
  destruct Hk as [->|[->|(d & Hd & ->)]].
  - unfold next_of. rewrite Hc, Ht, next_index by lia.
    apply shown_invariant; [done|]. rewrite Hdots. apply Hmod.
  - unfold prev_of. rewrite Hc, Ht, prev_index by lia.
    apply shown_invariant; [done|]. rewrite Hdots. apply Hmod.
  - apply shown_invariant; [lia|done].
Qed.

Lemma reachable_invariant doc s :
  1 ≤ length (ribbon_items doc) →
  length (nav_dots doc) = length (ribbon_items doc) →
  deck_invariant (constructor doc).2 →
  reachable doc s → deck_invariant s.
Proof.
  intros HN Hdots Hinit Hr.
  induction Hr as [|s ev Hr IH]; [done|].
  destruct (reachable_sizes doc s Hr) as [Hls Hld].
  apply (deck_step_invariant s); [|lia|apply dispatch_step|done].
  by apply (reachable_well_formed doc).
Qed.

Lemma slider_invariant_witness :
  outcome (run_calls [NextSlide; GoToSlide 2; PrevSlide])
    (exec (dispatch (TouchStart 300)) (constructor demo_page).2) = Normal tt ∧
  deck_invariant
    (exec (run_calls [NextSlide; GoToSlide 2; PrevSlide])
       (exec (dispatch (TouchStart 300)) (constructor demo_page).2)).
Proof.
  apply (slider_invariant demo_page).
  - simpl. lia.
  - reflexivity.
  - apply reach_event, reach_new.
  - repeat apply Forall_cons_2; simpl; try exact I; [lia|apply Forall_nil_2].
  - left. discriminate.
Defined.

(** ** Wraparound *)

Lemma mod_add_self (c N : nat) : c < N → (c + N) mod N = c.
Proof.
  intros Hc.
  rewrite <- Nat.Div0.add_mod_idemp_r, Nat.Div0.mod_same, Nat.add_0_r.
  by apply Nat.mod_small.
Qed.

Lemma next_prev_index (c N : nat) :
  c < N → ((c + 1) mod N + N - 1) mod N = c.
Proof.
  intros Hc. destruct (decide (c + 1 = N)) as [He|Hne].
  - rewrite He, Nat.Div0.mod_same. simpl.
    rewrite Nat.mod_small by lia. lia.
  - rewrite (Nat.mod_small (c + 1)) by lia.
    replace (c + 1 + N - 1) with (c + N) by lia. by apply mod_add_self.
Qed.

Lemma prev_next_index (c N : nat) :
  c < N → ((c + N - 1) mod N + 1) mod N = c.
Proof.
  intros Hc. destruct c as [|c].
  - rewrite (Nat.mod_small (0 + N - 1)) by lia.
    replace (0 + N - 1 + 1) with N by lia. apply Nat.Div0.mod_same.
  - replace (S c + N - 1) with (c + N) by lia.
    rewrite mod_add_self by lia. rewrite Nat.mod_small by lia. lia.
Qed.

Lemma times_nextSlide (n : nat) s c N :
  currentSlide s = of_index c → totalSlides s = of_index N → c < N →
  ∃ s', times n nextSlide s = (Normal tt, s') ∧
        currentSlide s' = of_index ((c + n) mod N) ∧
        totalSlides s' = totalSlides s.
Proof.
  revert s c. induction n as [|n IH]; intros s c Hc HN Hlt.
  - exists s. rewrite Nat.add_0_r, Nat.mod_small by done. done.
  - simpl.
    rewrite (bind_normal _ _ _ _ (nextSlide_eq s c N Hc HN ltac:(lia))).
    assert (Hm : (c + 1) mod N < N) by (apply Nat.mod_upper_bound; lia).
    destruct (IH (shown (of_index ((c + 1) mod N)) s) ((c + 1) mod N)
                eq_refl HN Hm) as (s' & Hrun & Hcur & Htot).
    exists s'. rewrite Nat.Div0.add_mod_idemp_l in Hcur.
    replace (c + S n) with (c + 1 + n) by lia. done.
Qed.

(** C6. In a slider with N ≥ 1 slides whose current index is in 0..N-1,
    N calls of nextSlide bring currentSlide back to where it was, and
    prevSlide undoes nextSlide and nextSlide undoes prevSlide on
    currentSlide. None of the calls throws. *)
Theorem wraparound (s : RibbonSlider) (c : nat) :
  totalSlides s = of_index (length (slides s)) →
  1 ≤ length (slides s) →
  currentSlide s = of_index c → c < length (slides s) →
  (outcome (times (length (slides s)) nextSlide) s = Normal tt ∧
   currentSlide (exec (times (length (slides s)) nextSlide) s)
   = currentSlide s) ∧
  (outcome (nextSlide ;; prevSlide) s = Normal tt ∧
   currentSlide (exec (nextSlide ;; prevSlide) s) = currentSlide s) ∧
  (outcome (prevSlide ;; nextSlide) s = Normal tt ∧
   currentSlide (exec (prevSlide ;; nextSlide) s) = currentSlide s).
Proof.
  intros Ht HN Hc Hlt. set (N := length (slides s)) in *.
  assert (Hmod : ∀ n, n mod N < N)
    by (intros n; apply Nat.mod_upper_bound; lia).
  split; [split|split; split].
  - destruct (times_nextSlide N s c N Hc Ht Hlt) as (s' & Hrun & _).
    unfold outcome. by rewrite Hrun.
  - destruct (times_nextSlide N s c N Hc Ht Hlt) as (s' & Hrun & Hcur & _).
    unfold exec. rewrite Hrun, Hc. simpl. rewrite Hcur.
    by rewrite mod_add_self.
  - unfold outcome.
    rewrite (bind_normal _ _ _ _ (nextSlide_eq s c N Hc Ht HN)).
    by rewrite prevSlide_goTo.
  - unfold exec.
    rewrite (bind_normal _ _ _ _ (nextSlide_eq s c N Hc Ht HN)).
    rewrite (prevSlide_eq (shown (of_index ((c + 1) mod N)) s)
               ((c + 1) mod N) N eq_refl Ht HN). simpl.
    by rewrite next_prev_index, Hc.
  - unfold outcome.
    rewrite (bind_normal _ _ _ _ (prevSlide_eq s c N Hc Ht HN)).
    by rewrite nextSlide_goTo.
  - unfold exec.
    rewrite (bind_normal _ _ _ _ (prevSlide_eq s c N Hc Ht HN)).
    rewrite (nextSlide_eq (shown (of_index ((c + N - 1) mod N)) s)
               ((c + N - 1) mod N) N eq_refl Ht HN). simpl.
    by rewrite prev_next_index, Hc.
Qed.

Lemma wraparound_witness :
  let s := exec (goToSlide (Int 1)) (constructor demo_page).2 in
  (outcome (times 3 nextSlide) s = Normal tt ∧
   currentSlide (exec (times 3 nextSlide) s) = Int 1) ∧
  (outcome (nextSlide ;; prevSlide) s = Normal tt ∧
   currentSlide (exec (nextSlide ;; prevSlide) s) = Int 1) ∧
  (outcome (prevSlide ;; nextSlide) s = Normal tt ∧
   currentSlide (exec (prevSlide ;; nextSlide) s) = Int 1).
Proof.
  apply (wraparound (exec (goToSlide (Int 1)) (constructor demo_page).2) 1).
  - reflexivity.
  - simpl. lia.
  - reflexivity.
  - simpl. lia.
Defined.

(** ** Idempotence *)

Lemma shown_fixed k s0 s :
  same_deck (shown k s0) s → shown (currentSlide s) s = s.
Proof.
  destruct s. unfold same_deck. simpl. intros (-> & -> & -> & _).
  unfold shown, set_currentSlide, set_dots, set_slides. simpl.
  rewrite (imap_idem (markSlide k)) by apply markSlide_idem.
  rewrite (imap_idem (markDot k)) by apply markDot_idem.
  reflexivity.
Qed.

(** C7. After at least one goToSlide, nextSlide or prevSlide call, the
    classes of the slides and dots are those that currentSlide determines,
    and calling goToSlide(currentSlide) again changes nothing at all: no
    slide class, no dot class, not currentSlide.  The same holds in every
    state with that deck, whatever happened to the timers since. *)
Theorem goToSlide_idempotent (s : RibbonSlider) (cs : list call) :
  cs ≠ [] →
  let s' := exec (run_calls cs) s in
  goToSlide (currentSlide s') s' = (Normal tt, s') ∧
  (∀ s'', same_deck s' s'' →
     goToSlide (currentSlide s'') s'' = (Normal tt, s'')) ∧
  (∀ i cl t, slides s' !! i = Some cl → t ∈ ["active"; "prev"; "next"] →
     ClassList.contains t cl = bool_decide (t = slideToken (currentSlide s') i)) ∧
  (∀ i cl, dots s' !! i = Some cl →
     ClassList.contains "active" cl
     = js_strict_eq (of_index i) (currentSlide s')).
Proof.
  intros Hne s'.
  destruct (run_calls_last cs s Hne) as (k & s1 & Hrun).
  assert (Hs' : s' = shown k s1) by (unfold s', exec; by rewrite Hrun).
  rewrite Hs'. clear s' Hs' Hrun. split; [|split; [|split]].
  - simpl currentSlide. by rewrite goToSlide_eq, shown_idem.
  - intros s'' Hdeck. by rewrite goToSlide_eq, (shown_fixed k s1).
  - intros i cl t. simpl. rewrite list_lookup_imap.
    destruct (slides s1 !! i); simpl; [|done].
    intros [= <-] Ht. by apply contains_markSlide.
  - intros i cl. simpl. rewrite list_lookup_imap.
    destruct (dots s1 !! i); simpl; [|done].
    intros [= <-]. apply contains_toggle.
Qed.

Lemma goToSlide_idempotent_witness :
  let s' := exec (run_calls [GoToSlide 2; NextSlide]) (constructor demo_page).2
  in goToSlide (currentSlide s') s' = (Normal tt, s') ∧
     goToSlide (currentSlide (exec restartAutoPlay s')) (exec restartAutoPlay s')
     = (Normal tt, exec restartAutoPlay s').
Proof.
  intros s'.
  assert (Hne : [GoToSlide 2; NextSlide] ≠ []) by discriminate.
  pose proof (goToSlide_idempotent (constructor demo_page).2
                [GoToSlide 2; NextSlide] Hne) as (Hsame & Hdeck & _).
  split; [exact Hsame|].
  apply Hdeck. vm_compute. repeat split.
Defined.

(** ** Touch gestures *)

Lemma deck_shows_of s s' k :
  same_deck (shown (of_index k) s) s' → shows s' k.
Proof.
  intros (Hc & Hs & Hd & _). unfold shows. rewrite Hc, Hs, Hd.
  apply shown_shows.
Qed.

Lemma touch_gesture_eq s startX endX :
  (handleTouchStart startX ;; handleTouchEnd endX) s
  = handleSwipe (set_touchEndX (Int endX) (set_touchStartX (Int startX) s)).
Proof. reflexivity. Qed.

Lemma restartAutoPlay_restarts s :
  timer_restarted s (exec restartAutoPlay s) ∧
  outcome restartAutoPlay s
  = match progressBar s with
    | Some _ => Normal tt
    | None => Throw TypeError
    end.
Proof.
  unfold outcome, exec, timer_restarted, cancelled.
  rewrite restartAutoPlay_eq.
  destruct (progressBar s) as [a|] eqn:Hb.
  - assert (Hb' : progressBar (exec startAutoPlay (exec stopAutoPlay s))
                  = Some a).
    { unfold exec. rewrite stopAutoPlay_eq.
      destruct (autoPlayInterval s); simpl; by rewrite Hb. }
    rewrite (restartProgressBar_some _ a Hb').
    unfold exec. rewrite stopAutoPlay_eq.
    destruct (autoPlayInterval s); simpl; by rewrite <- app_assoc.
  - assert (Hb' : progressBar (exec startAutoPlay (exec stopAutoPlay s))
                  = None).
    { unfold exec. rewrite stopAutoPlay_eq.
      destruct (autoPlayInterval s); simpl; by rewrite Hb. }
    rewrite (restartProgressBar_null _ Hb').
    unfold exec. rewrite stopAutoPlay_eq.
    destruct (autoPlayInterval s); simpl; by rewrite Hb.
Qed.

(** C3. A touch that starts at startX and ends at endX, with
    diff = startX - endX.  When |diff| > 50 the slider advances if
    diff > 0 and retreats if diff < 0: currentSlide becomes
    (currentSlide + 1) % totalSlides, respectively
    (currentSlide - 1 + totalSlides) % totalSlides, and slides and dots get
    the classes of that index; and autoplay is restarted: the interval held
    so far is cancelled, a new one is scheduled under a new handle that the
    slider holds, and the progress bar is reset.  When |diff| ≤ 50 only the
    two coordinates are recorded: no slide, dot or currentSlide changes and
    no timer is touched.  In a slider with N ≥ 1 slides and a current
    index c in range the new index is (c + 1) mod N, respectively
    (c + N - 1) mod N, and the deck shows it. *)
Theorem swipe_gesture (s : RibbonSlider) (startX endX : Z) :
  let diff := (startX - endX)%Z in
  let s1 := set_touchEndX (Int endX) (set_touchStartX (Int startX) s) in
  let gesture := (handleTouchStart startX ;; handleTouchEnd endX) in
  let s' := exec gesture s in
  ((Z.abs diff > CONFIG.SWIPE_THRESHOLD)%Z → (diff > 0)%Z →
     (gesture s = restartAutoPlay (exec nextSlide s1) ∧
      outcome nextSlide s1 = Normal tt) ∧
     (currentSlide s' = next_of s ∧ same_deck (shown (next_of s) s) s') ∧
     timer_restarted s s') ∧
  ((Z.abs diff > CONFIG.SWIPE_THRESHOLD)%Z → (diff < 0)%Z →
     (gesture s = restartAutoPlay (exec prevSlide s1) ∧
      outcome prevSlide s1 = Normal tt) ∧
     (currentSlide s' = prev_of s ∧ same_deck (shown (prev_of s) s) s') ∧
     timer_restarted s s') ∧
  ((Z.abs diff ≤ CONFIG.SWIPE_THRESHOLD)%Z →
     gesture s = (Normal tt, s1) ∧ same_deck s s1 ∧
     timers s1 = timers s ∧ autoPlayInterval s1 = autoPlayInterval s ∧
     nextHandle s1 = nextHandle s ∧ progressBar s1 = progressBar s) ∧
  (∀ c : nat,
     totalSlides s = of_index (length (slides s)) →
     1 ≤ length (slides s) →
     currentSlide s = of_index c → c < length (slides s) →
     (Z.abs diff > CONFIG.SWIPE_THRESHOLD)%Z →
     ((diff > 0)%Z →
        currentSlide s' = of_index ((c + 1) mod length (slides s)) ∧
        shows s' ((c + 1) mod length (slides s))) ∧
     ((diff < 0)%Z →
        currentSlide s'
        = of_index ((c + length (slides s) - 1) mod length (slides s)) ∧
        shows s' ((c + length (slides s) - 1) mod length (slides s)))).
Proof.
  intros diff s1 gesture s'.
  assert (Hrun : gesture s
    = if (CONFIG.SWIPE_THRESHOLD <? Z.abs diff)%Z then
        ((if (0 <? diff)%Z then nextSlide else prevSlide) ;; restartAutoPlay) s1
      else (Normal tt, s1)).
  { unfold gesture. rewrite touch_gesture_eq. fold s1.
    apply (handleSwipe_eq s1 startX endX eq_refl eq_refl). }
  assert (Hnext : (Z.abs diff > CONFIG.SWIPE_THRESHOLD)%Z → (diff > 0)%Z →
            gesture s = restartAutoPlay (shown (next_of s) s1)).
  { intros Habs Hpos. rewrite Hrun.
    rewrite (proj2 (Z.ltb_lt _ _)) by lia.
    rewrite (proj2 (Z.ltb_lt 0 diff)) by lia.
    by rewrite (bind_normal _ _ _ _ (nextSlide_goTo s1)). }
  assert (Hprev : (Z.abs diff > CONFIG.SWIPE_THRESHOLD)%Z → (diff < 0)%Z →
            gesture s = restartAutoPlay (shown (prev_of s) s1)).
  { intros Habs Hneg. rewrite Hrun.
    rewrite (proj2 (Z.ltb_lt _ _)) by lia.
    rewrite (proj2 (Z.ltb_ge 0 diff)) by lia.
    by rewrite (bind_normal _ _ _ _ (prevSlide_goTo s1)). }
  assert (Heffect : ∀ k, gesture s = restartAutoPlay (shown k s1) →
            (currentSlide s' = k ∧ same_deck (shown k s) s') ∧
            timer_restarted s s').
  { intros k Hk.
    assert (Hs' : s' = exec restartAutoPlay (shown k s1))
      by (unfold s', exec; by rewrite Hk).
    rewrite Hs'.
    pose proof (restartAutoPlay_deck (shown k s1)) as Hdeck.
    destruct (restartAutoPlay_restarts (shown k s1)) as [Hre _].
    split; [|exact Hre].
    split; [by destruct Hdeck as [-> _]|exact Hdeck]. }
  split; [|split; [|split]].
  - intros Habs Hpos. split; [|by apply Heffect, Hnext].
    rewrite (Hnext Habs Hpos). unfold exec, outcome.
    by rewrite nextSlide_goTo.
  - intros Habs Hneg. split; [|by apply Heffect, Hprev].
    rewrite (Hprev Habs Hneg). unfold exec, outcome.
    by rewrite prevSlide_goTo.
  - intros Habs. rewrite Hrun. rewrite (proj2 (Z.ltb_ge _ _)) by lia.
    by repeat split.
  - intros c Ht HN Hc Hlt Habs. split.
    + intros Hpos.
      destruct (Heffect _ (Hnext Habs Hpos)) as [[Hcur Hdeck] _].
      unfold next_of in Hcur, Hdeck.
      rewrite Hc, Ht, next_index in Hcur, Hdeck by done.
      split; [done|]. apply (deck_shows_of _ _ _ Hdeck).
    + intros Hneg.
      destruct (Heffect _ (Hprev Habs Hneg)) as [[Hcur Hdeck] _].
      unfold prev_of in Hcur, Hdeck.
      rewrite Hc, Ht, prev_index in Hcur, Hdeck by done.
      split; [done|]. apply (deck_shows_of _ _ _ Hdeck).
Qed.

Lemma swipe_gesture_witness :
  let s := (constructor demo_page).2 in
  let left := exec (handleTouchStart 300 ;; handleTouchEnd 200) s in
  let right := exec (handleTouchStart 200 ;; handleTouchEnd 300) s in
  (currentSlide left = Int 1 ∧ shows left 1 ∧
   autoPlayInterval left = Some 2%positive ∧
   timers left = [(2%positive, AutoAdvance); (3%positive, ProgressFill)] ∧
   progressBar left = Some "none") ∧
  (currentSlide right = Int 2 ∧ shows right 2) ∧
  (handleTouchStart 300 ;; handleTouchEnd 280) s
  = (Normal tt, set_touchEndX (Int 280) (set_touchStartX (Int 300) s)).
Proof.
  intros s left right.
  assert (HN : 1 ≤ length (slides s)) by (simpl; lia).
  assert (Hlt : 0 < length (slides s)) by (simpl; lia).
  split; [|split].
  - pose proof (swipe_gesture s 300 200) as (Hadv & _ & _ & Hidx).
    destruct Hadv as (_ & _ & Hh & Ht & Hb);
      [unfold CONFIG.SWIPE_THRESHOLD; lia|lia|].
    destruct (Hidx 0 eq_refl HN eq_refl Hlt) as [Hn _];
      [unfold CONFIG.SWIPE_THRESHOLD; lia|].
    destruct Hn as [Hcur Hshows]; [lia|].
    split; [exact Hcur|]. split; [exact Hshows|].
    split; [exact Hh|]. split; [exact Ht|exact Hb].
  - pose proof (swipe_gesture s 200 300) as (_ & _ & _ & Hidx).
    destruct (Hidx 0 eq_refl HN eq_refl Hlt) as [_ Hp];
      [unfold CONFIG.SWIPE_THRESHOLD; lia|].
    apply Hp. lia.
  - apply (swipe_gesture s 300 280). unfold CONFIG.SWIPE_THRESHOLD. lia.
Defined.

(** ** Timers *)

Lemma restartAutoPlay_null s :
  progressBar s = None →
  restartAutoPlay s
  = (Throw TypeError, exec startAutoPlay (exec stopAutoPlay s)).
Proof.
  intros Hb. rewrite restartAutoPlay_eq. apply restartProgressBar_null.
  unfold exec. rewrite stopAutoPlay_eq. by destruct (autoPlayInterval s).
Qed.


(** What stopping and then starting leaves in the timer table. *)
Lemma stop_start_timers s :
  let s' := exec startAutoPlay (exec stopAutoPlay s) in
  autoPlayInterval s' = Some (nextHandle s) ∧
  timers s'
  = match autoPlayInterval s with
    | Some id => filter (λ t, t.1 ≠ id) (timers s)
    | None => timers s
    end ++ [(nextHandle s, AutoAdvance)].
Proof.
  unfold exec. rewrite stopAutoPlay_eq.
  by destruct (autoPlayInterval s).
Qed.

Lemma startAutoPlay_pending s :
  pending_advances (exec startAutoPlay s) = S (pending_advances s).
Proof.
  unfold pending_advances, exec. rewrite startAutoPlay_eq. simpl.
  rewrite filter_app, length_app. simpl. lia.
Qed.

Lemma stopAutoPlay_cleared s id cb :
  autoPlayInterval s = Some id → (id, cb) ∉ timers (exec stopAutoPlay s).
Proof.
  intros Hid. unfold exec. rewrite stopAutoPlay_eq, Hid. simpl.
  rewrite list_elem_of_filter. simpl. tauto.
Qed.

Lemma stopAutoPlay_owned s :
  owned s → pending_advances (exec stopAutoPlay s) = 0.
Proof.
  intros Hown. unfold pending_advances, exec. rewrite stopAutoPlay_eq.
  apply length_zero_iff_nil.
  destruct (filter _ _) as [|[id cb] l] eqn:Hf; [done|].
  assert (Hin : (id, cb) ∈ (id, cb) :: l) by left.
  rewrite <- Hf in Hin. apply list_elem_of_filter in Hin as [Hcb Hin].
  simpl in Hcb. subst cb.
  destruct (autoPlayInterval s) as [h|] eqn:Hh; simpl in Hin.
  - apply list_elem_of_filter in Hin as [Hne Hin]. simpl in Hne.
    apply Hown in Hin. congruence.
  - apply Hown in Hin. congruence.
Qed.

Lemma restartProgressBar_pending s :
  pending_advances (exec restartProgressBar s) = pending_advances s.
Proof.
  unfold exec. destruct (progressBar s) as [a|] eqn:Hb.
  - rewrite (restartProgressBar_some s a Hb).
    unfold pending_advances. simpl.
    rewrite filter_app, length_app, filter_cons_False by done. simpl. lia.
  - by rewrite restartProgressBar_null.
Qed.

Lemma restartAutoPlay_owned s :
  owned s → pending_advances (exec restartAutoPlay s) = 1.
Proof.
  intros Hown. unfold exec at 1. rewrite restartAutoPlay_eq.
  fold (exec restartProgressBar (exec startAutoPlay (exec stopAutoPlay s))).
  by rewrite restartProgressBar_pending, startAutoPlay_pending,
    stopAutoPlay_owned.
Qed.

(** C2. startAutoPlay never looks at the handle it already holds: every
    call schedules one more recurring advance.  A page that becomes
    visible while its first schedule is still running therefore has two
    of them, the first of which no handle refers to any more. *)
Theorem startAutoPlay_not_exclusive (doc : Document) :
  let s := (constructor doc).2 in
  let s' := exec (dispatch (VisibilityChange false)) s in
  2 ≤ pending_advances s' ∧
  (next_handle doc, AutoAdvance) ∈ timers s' ∧
  (Pos.succ (next_handle doc), AutoAdvance) ∈ timers s' ∧
  autoPlayInterval s' = Some (Pos.succ (next_handle doc)) ∧
  (next_handle doc, AutoAdvance) ∈ timers (exec stopAutoPlay s').
Proof.
  intros s s'.
  assert (Hs' : s' = exec startAutoPlay s) by done.
  split; [|split; [|split; [|split]]].
  - rewrite Hs', startAutoPlay_pending.
    unfold s, pending_advances. rewrite constructor_eq. simpl.
    rewrite filter_app, length_app. simpl. lia.
  - unfold s', s. rewrite constructor_eq. simpl.
    rewrite !elem_of_app, !list_elem_of_singleton. tauto.
  - unfold s', s. rewrite constructor_eq. simpl.
    rewrite !elem_of_app, !list_elem_of_singleton. tauto.
  - done.
  - unfold s', s. rewrite constructor_eq. simpl.
    rewrite list_elem_of_filter, !elem_of_app, !list_elem_of_singleton.
    simpl. split; [lia|tauto].
Qed.

(** ** Page visibility *)

Lemma stopAutoPlay_idem_state s :
  exec stopAutoPlay (exec stopAutoPlay s) = exec stopAutoPlay s.
Proof.
  unfold exec. rewrite !stopAutoPlay_eq. simpl.
  destruct (autoPlayInterval s) as [id|] eqn:Hid; simpl; rewrite Hid; [|done].
  unfold set_timers. simpl. f_equal.
  by apply (list_filter_filter_l (λ t, t.1 ≠ id) (λ t, t.1 ≠ id)).
Qed.

(** What the visibility listener does in any state.  When the page becomes
    hidden it runs stopAutoPlay: the interval the slider holds the handle
    of is cancelled (and with it every scheduled advance, when the slider
    held them all).  When the page becomes visible again it runs
    startAutoPlay, not restartAutoPlay: one new interval is scheduled, and
    the progress bar is neither reset nor given a new animation timeout.
    currentSlide, slides and dots are the same after either transition. *)
Theorem visibility_transitions (s : RibbonSlider) :
  let h := exec (visibilitychange true) s in
  let v := exec (visibilitychange false) s in
  (visibilitychange true s = stopAutoPlay s ∧
   visibilitychange false s = startAutoPlay s) ∧
  (outcome (visibilitychange true) s = Normal tt ∧
   outcome (visibilitychange false) s = Normal tt) ∧
  (same_deck s h ∧ same_deck s v) ∧
  (progressBar h = progressBar s ∧ progressBar v = progressBar s) ∧
  (∀ id cb, autoPlayInterval s = Some id → (id, cb) ∉ timers h) ∧
  (owned s → pending_advances h = 0) ∧
  (timers v = timers s ++ [(nextHandle s, AutoAdvance)] ∧
   autoPlayInterval v = Some (nextHandle s)) ∧
  (is_Some (progressBar s) →
   progressBar (exec restartAutoPlay s) = Some "none" ∧
   (Pos.succ (nextHandle s), ProgressFill) ∈ timers (exec restartAutoPlay s)).
Proof.
  intros h v.
  split; [done|]. split.
  { unfold outcome. simpl. by rewrite stopAutoPlay_eq. }
  split; [split; [apply stopAutoPlay_deck|apply startAutoPlay_deck]|].
  split.
  { split; [|done]. unfold h, exec. simpl. rewrite stopAutoPlay_eq.
    by destruct (autoPlayInterval s). }
  split; [intros id cb; apply stopAutoPlay_cleared|].
  split; [apply stopAutoPlay_owned|].
  split; [done|].
  intros [a Ha]. unfold exec at 1 2. rewrite restartAutoPlay_eq.
  assert (Hb : progressBar (exec startAutoPlay (exec stopAutoPlay s)) = Some a).
  { unfold exec. rewrite stopAutoPlay_eq.
    destruct (autoPlayInterval s); simpl; by rewrite Ha. }
  rewrite (restartProgressBar_some _ a Hb). simpl.
  split; [done|].
  rewrite elem_of_app, list_elem_of_singleton. right.
  unfold exec. rewrite stopAutoPlay_eq. by destruct (autoPlayInterval s).
Qed.

Lemma visibility_transitions_witness :
  let s := (constructor demo_page).2 in
  pending_advances (exec (visibilitychange true) s) = 0 ∧
  progressBar (exec restartAutoPlay s) = Some "none".
Proof.
  intros s.
  pose proof (visibility_transitions s) as (_ & _ & _ & _ & _ & Hstop & _ & Hre).
  split.
  - apply Hstop. intros id Hin. vm_compute in Hin.
    apply list_elem_of_singleton in Hin. injection Hin as ->. reflexivity.
  - apply Hre. vm_compute. eauto.
Defined.

(** C8. Hiding the page does not always stop autoplay.  When the page
    becomes visible while the interval of the constructor is still
    scheduled, startAutoPlay schedules a second one and overwrites the
    handle; the hidden transition that follows cancels only the second.
    The state is reachable, the first interval is still scheduled after
    the page is hidden, and when it fires the slider advances although
    the page is hidden. *)
Theorem hidden_leaves_advance_pending (doc : Document) :
  let s := (constructor doc).2 in
  let v := exec (dispatch (VisibilityChange false)) s in
  let h := exec (dispatch (VisibilityChange true)) v in
  (reachable doc h ∧
   (next_handle doc, AutoAdvance) ∈ timers h ∧
   1 ≤ pending_advances h ∧
   autoPlayInterval h = Some (Pos.succ (next_handle doc)) ∧
   exec stopAutoPlay h = h) ∧
  (let h3 := exec (dispatch (VisibilityChange true))
               (exec (dispatch (VisibilityChange false))
                  (constructor demo_page).2) in
   timers h3 = [(1%positive, AutoAdvance)] ∧
   currentSlide h3 = Int 0 ∧
   currentSlide (exec (dispatch (TimerFire 1)) h3) = Int 1).
Proof.
  intros s v h. split; [|by vm_compute].
  assert (Hin : (next_handle doc, AutoAdvance) ∈ timers h).
  { unfold h, v, s. rewrite constructor_eq. simpl.
    rewrite list_elem_of_filter, !elem_of_app, !list_elem_of_singleton.
    simpl. split; [lia|tauto]. }
  split; [apply reach_event, reach_event, reach_new|].
  split; [done|]. split; [|split; [done|]].
  - unfold pending_advances.
    destruct (filter _ (timers h)) as [|t l] eqn:Hf; [|simpl; lia].
    assert (Hf' : (next_handle doc, AutoAdvance)
                  ∈ filter (λ t, t.2 = AutoAdvance) (timers h))
      by (by apply list_elem_of_filter).
    rewrite Hf in Hf'. by apply not_elem_of_nil in Hf'.
  - pose proof (stopAutoPlay_idem_state v) as Hidem. exact Hidem.
Qed.

(** ** A missing progress bar *)

(** C10. restartAutoPlay reaches restartProgressBar whatever progressBar
    is.  On a page without a progress-fill element, a dot click, an
    ArrowLeft or ArrowRight key and a swipe beyond the threshold all end
    in a TypeError, thrown after the slide has changed and after the
    timer has been stopped and started again. *)
Theorem missing_progress_bar_throws (s : RibbonSlider) :
  progressBar s = None →
  let restarted (s0 : RibbonSlider) :=
    exec startAutoPlay (exec stopAutoPlay s0) in
  restartAutoPlay s = (Throw TypeError, restarted s) ∧
  (autoPlayInterval (restarted s) = Some (nextHandle s) ∧
   (nextHandle s, AutoAdvance) ∈ timers (restarted s)) ∧
  (∀ d, d < length (dots s) →
     dispatch (Click d) s
     = (Throw TypeError, restarted (exec (goToSlide (of_index d)) s))) ∧
  dispatch (Keydown "ArrowLeft") s
  = (Throw TypeError, restarted (exec prevSlide s)) ∧
  dispatch (Keydown "ArrowRight") s
  = (Throw TypeError, restarted (exec nextSlide s)) ∧
  (∀ a x, touchStartX s = Int a →
     (Z.abs (a - x) > CONFIG.SWIPE_THRESHOLD)%Z →
     dispatch (TouchEnd x) s
     = (Throw TypeError,
        restarted (exec (if (0 <? a - x)%Z then nextSlide else prevSlide)
                     (set_touchEndX (Int x) s)))).
Proof.
  intros Hb restarted.
  split; [by apply restartAutoPlay_null|].
  split.
  { destruct (stop_start_timers s) as [Hh Ht]. split; [done|].
    unfold restarted. rewrite Ht, elem_of_app, list_elem_of_singleton. tauto. }
  split; [|split; [|split]].
  - intros d Hd. unfold dispatch, bind at 1, gets.
    rewrite bool_decide_eq_true_2 by done.
    unfold dotClick. slide_step.
    by apply restartAutoPlay_null.
  - unfold dispatch, handleKeydown. simpl.
    slide_step.
    by apply restartAutoPlay_null.
  - unfold dispatch, handleKeydown. simpl.
    slide_step.
    by apply restartAutoPlay_null.
  - intros a x Ha Habs. unfold dispatch, handleTouchEnd.
    rewrite (bind_normal _ _ s (set_touchEndX (Int x) s) eq_refl).
    rewrite (handleSwipe_eq (set_touchEndX (Int x) s) a x Ha eq_refl).
    rewrite (proj2 (Z.ltb_lt _ _)) by lia.
    destruct (0 <? a - x)%Z.
    + slide_step.
      by apply restartAutoPlay_null.
    + slide_step.
      by apply restartAutoPlay_null.
Qed.

Lemma missing_progress_bar_throws_witness :
  let s := (constructor page_without_progress).2 in
  outcome (dispatch (Click 2)) s = Throw TypeError ∧
  currentSlide (exec (dispatch (Click 2)) s) = Int 2 ∧
  autoPlayInterval (exec (dispatch (Click 2)) s) = Some 2%positive ∧
  timers (exec (dispatch (Click 2)) s) = [(2%positive, AutoAdvance)] ∧
  outcome (dispatch (TouchEnd 200)) s = Throw TypeError.
Proof.
  intros s.
  pose proof (missing_progress_bar_throws s eq_refl)
    as (_ & _ & Hclick & _ & _ & Hswipe).
  unfold outcome, exec.
  rewrite (Hclick 2) by (simpl; lia).
  rewrite (Hswipe 0%Z 200%Z eq_refl)
    by (unfold CONFIG.SWIPE_THRESHOLD; simpl; lia).
  repeat split.
Defined.

(** ** Touch-end without touch-start *)







(** ** A slider without slides *)

(** C5, as the specification states it, fails: on a page without slides
    goToSlide(1), nextSlide and prevSlide all leave a currentSlide that
    differs from the one they found. *)
Lemma zero_slides_not_noop :
  let s := (constructor page_without_slides).2 in
  slides s = [] ∧
  exec (goToSlide (Int 1)) s ≠ s ∧
  exec nextSlide s ≠ s ∧
  exec prevSlide s ≠ s.
Proof.
  split; [done|].
  repeat split; intros H; apply (f_equal currentSlide) in H; discriminate H.
Qed.

(** C5, amended. With zero slides goToSlide, nextSlide and prevSlide throw
    nothing and leave the empty slide list, totalSlides, the timers, the
    progress bar and the touch coordinates as they were.  They are not
    no-ops: goToSlide(i) stores i in currentSlide and leaves 'active' on
    the dot at i and on no other dot. *)
Theorem zero_slides (s : RibbonSlider) :
  slides s = [] →
  (∀ i, let s' := exec (goToSlide i) s in
     outcome (goToSlide i) s = Normal tt ∧
     (slides s' = [] ∧ totalSlides s' = totalSlides s ∧ same_rest s s') ∧
     currentSlide s' = i ∧
     (∀ j cl, dots s' !! j = Some cl →
        ClassList.contains "active" cl = js_strict_eq (of_index j) i)) ∧
  (outcome nextSlide s = Normal tt ∧
   slides (exec nextSlide s) = [] ∧
   totalSlides (exec nextSlide s) = totalSlides s ∧
   same_rest s (exec nextSlide s)) ∧
  (outcome prevSlide s = Normal tt ∧
   slides (exec prevSlide s) = [] ∧
   totalSlides (exec prevSlide s) = totalSlides s ∧
   same_rest s (exec prevSlide s)).
Proof.
  intros Hs.
  assert (Hshown : ∀ k, slides (shown k s) = [])
    by (intros k; simpl; by rewrite Hs).
  split; [|split].
  - intros i s'. unfold s', outcome, exec. rewrite goToSlide_eq.
    cbn [fst snd].
    split; [done|]. split; [by rewrite Hshown|]. split; [done|].
    intros j cl. simpl. rewrite list_lookup_imap.
    destruct (dots s !! j); simpl; [|done].
    intros [= <-]. apply contains_toggle.
  - unfold outcome, exec. rewrite nextSlide_goTo. cbn [fst snd].
    by rewrite Hshown.
  - unfold outcome, exec. rewrite prevSlide_goTo. cbn [fst snd].
    by rewrite Hshown.
Qed.

Lemma zero_slides_witness :
  let s := (constructor page_without_slides).2 in
  outcome (goToSlide (Int 1)) s = Normal tt ∧
  currentSlide (exec (goToSlide (Int 1)) s) = Int 1 ∧
  outcome nextSlide s = Normal tt ∧
  timers (exec nextSlide s) = timers s.
Proof.
  intros s.
  pose proof (zero_slides s eq_refl) as (Hgo & Hnext & _).
  destruct (Hgo (Int 1)) as (Hout & _ & Hcur & _).
  destruct Hnext as (Hn & _ & _ & Hrest).
  split; [exact Hout|]. split; [exact Hcur|]. split; [exact Hn|apply Hrest].
Defined.

(** ** Indices out of range *)

(** C9. goToSlide does not check its argument.  With N ≥ 1 slides and an
    index ≥ N, which the click listener of a dot beyond the last slide
    passes, every slide ends up 'prev', none is 'active' or 'next', and
    currentSlide holds the index: the deck invariant is lost. *)
Theorem goToSlide_out_of_range (s : RibbonSlider) (idx : Z) :
  1 ≤ length (slides s) →
  (Z.of_nat (length (slides s)) ≤ idx)%Z →
  let s' := exec (goToSlide (Int idx)) s in
  outcome (goToSlide (Int idx)) s = Normal tt ∧
  currentSlide s' = Int idx ∧
  length (slides s') = length (slides s) ∧
  (∀ i cl, slides s' !! i = Some cl →
     ClassList.contains "prev" cl = true ∧
     ClassList.contains "active" cl = false ∧
     ClassList.contains "next" cl = false) ∧
  count_active (slides s') = 0 ∧
  ¬ deck_invariant s' ∧
  (∀ d, idx = Z.of_nat d → d < length (dots s) →
     same_deck s' (exec (dispatch (Click d)) s)).
Proof.
  intros HN Hidx s'.
  assert (Hs' : s' = shown (Int idx) s) by done.
  assert (Hcls : ∀ i cl, slides s' !! i = Some cl →
     ClassList.contains "prev" cl = true ∧
     ClassList.contains "active" cl = false ∧
     ClassList.contains "next" cl = false).
  { intros i cl. rewrite Hs'. simpl. rewrite list_lookup_imap.
    destruct (slides s !! i) as [x|] eqn:Hi; simpl; [|done].
    intros [= <-]. apply lookup_lt_Some in Hi.
    rewrite !contains_markSlide by (rewrite !elem_of_cons; tauto).
    assert (Htok : slideToken (Int idx) i = "prev").
    { unfold slideToken, of_index, js_strict_eq, js_lt.
      rewrite (proj2 (Z.eqb_neq _ _)) by lia.
      by rewrite (proj2 (Z.ltb_lt _ _)) by lia. }
    rewrite Htok. done. }
  assert (Hcount : count_active (slides s') = 0).
  { apply count_active_none. intros i cl Hi. by destruct (Hcls i cl Hi) as (_ & ? & _). }
  split; [done|]. split; [done|].
  split; [rewrite Hs'; apply length_imap|].
  split; [done|]. split; [done|]. split.
  - intros (k & _ & _ & Hone & _). rewrite Hcount in Hone. discriminate.
  - intros d -> Hd. rewrite Hs'. unfold exec, dispatch, bind at 1, gets.
    rewrite bool_decide_eq_true_2 by done.
    unfold dotClick. slide_step.
    apply restartAutoPlay_deck.
Qed.

Lemma goToSlide_out_of_range_witness :
  let s := (constructor page_with_extra_dots).2 in
  currentSlide (exec (goToSlide (Int 3)) s) = Int 3 ∧
  count_active (slides (exec (goToSlide (Int 3)) s)) = 0 ∧
  same_deck (exec (goToSlide (Int 3)) s) (exec (dispatch (Click 3)) s).
Proof.
  intros s.
  assert (HN : 1 ≤ length (slides s)) by (simpl; lia).
  assert (Hidx : (Z.of_nat (length (slides s)) ≤ 3)%Z) by (simpl; lia).
  pose proof (goToSlide_out_of_range s 3 HN Hidx)
    as (_ & Hcur & _ & _ & Hcount & _ & Hclick).
  split; [exact Hcur|]. split; [exact Hcount|].
  apply Hclick; [reflexivity|simpl; lia].
Defined.

(** ** The scenarios of the specification *)

(** Scenario A: five slides, one advance shows slide 1, four more show
    slide 0 again. *)
Example scenario_A :
  let s := (constructor five_slides).2 in
  currentSlide s = Int 0 ∧
  currentSlide (exec nextSlide s) = Int 1 ∧
  currentSlide (exec (times 4 nextSlide) (exec nextSlide s)) = Int 0.
Proof. by vm_compute. Qed.

(** Scenarios B and C: a swipe from 300 to 200 advances and restarts the
    timer; a swipe from 300 to 280 does neither. *)
Example scenario_B :
  let s := (constructor five_slides).2 in
  let s' := exec (dispatch (TouchEnd 200)) (exec (dispatch (TouchStart 300)) s)
  in currentSlide s' = Int 1 ∧
     autoPlayInterval s = Some 1%positive ∧
     autoPlayInterval s' = Some 2%positive ∧
     timers s' = [(2%positive, AutoAdvance); (3%positive, ProgressFill)].
Proof. by vm_compute. Qed.

Example scenario_C :
  let s := (constructor five_slides).2 in
  let s' := exec (dispatch (TouchEnd 280)) (exec (dispatch (TouchStart 300)) s)
  in currentSlide s' = Int 0 ∧ slides s' = slides s ∧ dots s' = dots s ∧
     autoPlayInterval s' = autoPlayInterval s ∧ timers s' = timers s.
Proof. by vm_compute. Qed.

(** Scenario D: a click on dot 3 shows slide 3 at once. *)
Example scenario_D :
  let s' := exec (dispatch (Click 3)) (constructor five_slides).2 in
  currentSlide s' = Int 3 ∧
  ClassList.contains "active" <$> slides s' = [false; false; false; true; false] ∧
  ClassList.contains "prev" <$> slides s' = [true; true; true; false; false] ∧
  ClassList.contains "next" <$> slides s' = [false; false; false; false; true] ∧
  ClassList.contains "active" <$> dots s' = [false; false; false; true; false].
Proof. by vm_compute. Qed.

(** Scenario E: hiding the page leaves no advance scheduled; showing it
    again schedules one. *)
Example scenario_E :
  let s := (constructor five_slides).2 in
  let h := exec (dispatch (VisibilityChange true)) s in
  let v := exec (dispatch (VisibilityChange false)) h in
  pending_advances s = 1 ∧ pending_advances h = 0 ∧
  currentSlide (exec (dispatch (TimerFire 1)) h) = currentSlide h ∧
  pending_advances v = 1 ∧
  currentSlide (exec (dispatch (TimerFire 2)) v) = Int 1.
Proof. by vm_compute. Qed.

(** The markup of the sample page already has the deck invariant, so
    every state reachable from it has it. *)
Example five_slides_invariant s :
  reachable five_slides s → deck_invariant s.
Proof.
  apply reachable_invariant; [simpl; lia|done|].
  exists 0. split; [simpl; lia|]. split; [|by vm_compute].
  split; [done|]. split.
  - intros [|[|[|[|[|i]]]]] cl; simpl; intros [= <-]; by vm_compute.
  - intros [|[|[|[|[|i]]]]] cl; simpl; intros [= <-]; by vm_compute.
Qed.

(** * Further properties of the code *)

(** ** One rule for all events *)

Lemma clearInterval_eq id s :
  clearInterval id s
  = (Normal tt, set_timers (filter (λ t, t.1 ≠ id) (timers s)) s).
Proof. reflexivity. Qed.

(** A property that the building blocks of the handlers keep is kept by
    every event; [startAutoPlay] on its own only runs when the page becomes
    visible. *)
Lemma dispatch_rule (P : RibbonSlider → Prop) ev s :
  (∀ k s0, P s0 → P (shown k s0)) →
  (∀ v s0, P s0 → P (set_touchStartX v s0)) →
  (∀ v s0, P s0 → P (set_touchEndX v s0)) →
  (∀ v s0, P s0 → P (set_progressBar v s0)) →
  (∀ id s0, P s0 → P (exec (clearInterval id) s0)) →
  (∀ s0, P s0 → P (exec stopAutoPlay s0)) →
  (∀ s0, P s0 → P (exec restartAutoPlay s0)) →
  (ev = VisibilityChange false → P (exec startAutoPlay s)) →
  P s → P (exec (dispatch ev) s).
Proof.
  intros Hshown Hstart Hend Hbar Hclear Hstop Hrestart Hvisible Hs.
  destruct ev as [d|key|x|x|hidden|id]; unfold exec, dispatch.
  - unfold bind, gets. case_bool_decide; [|done].
    unfold dotClick. slide_step. by apply Hrestart, Hshown.
  - unfold handleKeydown.
    destruct (String.eqb key "ArrowLeft");
      [|destruct (String.eqb key "ArrowRight")]; [| |done].
    + slide_step. by apply Hrestart, Hshown.
    + slide_step. by apply Hrestart, Hshown.
  - by apply Hstart.
  - unfold handleTouchEnd.
    rewrite (bind_normal _ _ s (set_touchEndX (Int x) s) eq_refl).
    unfold handleSwipe, bind at 1 2, gets.
    destruct (js_gt _ _); [|by apply Hend].
    destruct (js_gt _ _); slide_step; by apply Hrestart, Hshown, Hend.
  - destruct hidden; [by apply Hstop|by apply Hvisible].
  - unfold timerFire, bind at 1, gets.
    destruct (filter _ (timers s)) as [|[? [| |]] ?]; [done| |  |done].
    + rewrite nextSlide_goTo. by apply Hshown.
    + rewrite (bind_normal _ _ _ _ (clearInterval_eq id s)).
      unfold bind, gets, modify. simpl.
      destruct (progressBar s); simpl.
      * by apply Hbar, (Hclear id).
      * by apply (Hclear id).
Qed.

(** ** Timer exclusivity under discipline *)

Lemma no_pending s id :
  pending_advances s = 0 → (id, AutoAdvance) ∉ timers s.
Proof.
  unfold pending_advances. intros H0 Hin.
  apply length_zero_iff_nil in H0.
  assert (Hf : (id, AutoAdvance) ∈ filter (λ t, t.2 = AutoAdvance) (timers s))
    by (apply list_elem_of_filter; done).
  rewrite H0 in Hf. by apply not_elem_of_nil in Hf.
Qed.

Lemma startAutoPlay_exclusive s :
  pending_advances s = 0 → exclusive (exec startAutoPlay s).
Proof.
  intros H0. split.
  - intros id. unfold exec. rewrite startAutoPlay_eq. simpl.
    rewrite elem_of_app, list_elem_of_singleton.
    intros [Hin|[= ->]]; [by apply (no_pending s id) in Hin|done].
  - rewrite startAutoPlay_pending. lia.
Qed.

Lemma stopAutoPlay_exclusive s : exclusive s → exclusive (exec stopAutoPlay s).
Proof.
  intros [Hown _].
  pose proof (stopAutoPlay_owned s Hown) as H0. split; [|lia].
  intros id Hin. by apply no_pending in Hin.
Qed.

Lemma restartProgressBar_exclusive s :
  exclusive s → exclusive (exec restartProgressBar s).
Proof.
  intros [Hown Hone]. split; [|by rewrite restartProgressBar_pending].
  intros id. unfold exec. destruct (progressBar s) as [a|] eqn:Hb.
  - rewrite (restartProgressBar_some s a Hb). simpl.
    rewrite elem_of_app, list_elem_of_singleton.
    intros [Hin|[=]]. by apply Hown.
  - rewrite restartProgressBar_null by done. apply Hown.
Qed.

Lemma restartAutoPlay_exclusive s :
  exclusive s → exclusive (exec restartAutoPlay s).
Proof.
  intros [Hown _]. unfold exec at 1. rewrite restartAutoPlay_eq.
  apply restartProgressBar_exclusive, startAutoPlay_exclusive.
  by apply stopAutoPlay_owned.
Qed.

Lemma clearInterval_exclusive id s :
  exclusive s → exclusive (exec (clearInterval id) s).
Proof.
  intros [Hown Hone]. split.
  - intros i. unfold exec. rewrite clearInterval_eq. simpl.
    rewrite list_elem_of_filter. intros [_ Hin]. by apply Hown.
  - unfold pending_advances, exec in *. rewrite clearInterval_eq. simpl.
    rewrite (list_filter_filter (λ t, t.2 = AutoAdvance) (λ t, t.1 ≠ id)).
    rewrite <- (list_filter_filter_l (λ t, t.2 = AutoAdvance ∧ t.1 ≠ id)
                 (λ t, t.2 = AutoAdvance)) by tauto.
    etrans; [apply length_filter|done].
Qed.

(** X1. Timer exclusivity holds under one discipline.  On a page whose
    timer table has no advance of its own, after any sequence of events in
    which the page never becomes visible while an advance is scheduled,
    at most one advance is scheduled and the slider holds its handle. *)
Theorem timer_exclusive (doc : Document) (s : RibbonSlider) :
  (∀ t, t ∈ active_timers doc → t.2 ≠ AutoAdvance) →
  disciplined doc s →
  owned s ∧ pending_advances s ≤ 1.
Proof.
  intros Hdoc Hs. change (exclusive s).
  induction Hs as [|s ev _ IH Htimed].
  - apply (startAutoPlay_exclusive
             {| currentSlide := Int 0; slides := ribbon_items doc;
                dots := nav_dots doc;
                totalSlides := of_index (length (ribbon_items doc));
                autoPlayInterval := None; progressBar := progress_fill doc;
                touchStartX := Int 0; touchEndX := Int 0;
                timers := active_timers doc;
                nextHandle := next_handle doc |}).
    unfold pending_advances. simpl. apply length_zero_iff_nil.
    destruct (filter _ _) as [|t l] eqn:Hf; [done|].
    assert (Hin : t ∈ t :: l) by left.
    rewrite <- Hf in Hin. apply list_elem_of_filter in Hin as [Hcb Hin].
    by apply Hdoc in Hin.
  - apply dispatch_rule; try done.
    + intros id s0. apply clearInterval_exclusive.
    + apply stopAutoPlay_exclusive.
    + apply restartAutoPlay_exclusive.
    + intros Hev. by apply startAutoPlay_exclusive, Htimed.
Qed.

Lemma timer_exclusive_witness :
  let s := exec (dispatch (VisibilityChange false))
             (exec (dispatch (VisibilityChange true))
                (exec (dispatch (Keydown "ArrowRight"))
                   (constructor demo_page).2)) in
  owned s ∧ pending_advances s ≤ 1.
Proof.
  apply (timer_exclusive demo_page).
  - intros t Hin. by apply not_elem_of_nil in Hin.
  - apply disciplined_event; [apply disciplined_event;
      [apply disciplined_event; [apply disciplined_new|]|]|].
    + intros [=].
    + intros [=].
    + intros _. reflexivity.
Defined.

(** X2. Hiding and showing the page again is safe when the slider holds
    every scheduled advance: afterwards exactly one advance is scheduled,
    under a new handle that the slider holds, and neither the deck nor the
    progress bar has changed. *)
Theorem hide_show_cycle (s : RibbonSlider) :
  owned s →
  let s' := exec (dispatch (VisibilityChange false))
              (exec (dispatch (VisibilityChange true)) s) in
  pending_advances s' = 1 ∧ owned s' ∧
  autoPlayInterval s' = Some (nextHandle s) ∧
  same_deck s s' ∧ progressBar s' = progressBar s.
Proof.
  intros Hown s'.
  assert (Hs' : s' = exec startAutoPlay (exec stopAutoPlay s)) by done.
  pose proof (stopAutoPlay_owned s Hown) as H0.
  destruct (startAutoPlay_exclusive _ H0) as [Hown' _].
  rewrite Hs'. split; [by rewrite startAutoPlay_pending, H0|].
  split; [done|].
  destruct (stop_start_timers s) as [Hh _]. split; [done|].
  split.
  - eapply same_deck_trans; [apply stopAutoPlay_deck|apply startAutoPlay_deck].
  - unfold exec. rewrite stopAutoPlay_eq. by destruct (autoPlayInterval s).
Qed.

Lemma hide_show_cycle_witness :
  let s := (constructor demo_page).2 in
  pending_advances
    (exec (dispatch (VisibilityChange false))
       (exec (dispatch (VisibilityChange true)) s)) = 1.
Proof.
  intros s. apply (hide_show_cycle s).
  intros id Hin. vm_compute in Hin.
  apply list_elem_of_singleton in Hin. injection Hin as ->. reflexivity.
Defined.

(** X3. stopAutoPlay is idempotent and never touches the handle: stopping
    a stopped slider changes nothing, and autoPlayInterval keeps naming the
    cancelled interval. *)
Theorem stopAutoPlay_idempotent (s : RibbonSlider) :
  outcome stopAutoPlay s = Normal tt ∧
  autoPlayInterval (exec stopAutoPlay s) = autoPlayInterval s ∧
  exec stopAutoPlay (exec stopAutoPlay s) = exec stopAutoPlay s.
Proof.
  unfold outcome, exec. rewrite !stopAutoPlay_eq. simpl.
  destruct (autoPlayInterval s) as [id|] eqn:Hid; simpl.
  - split; [done|]. split; [done|]. rewrite Hid.
    unfold set_timers. simpl. f_equal.
    by apply (list_filter_filter_l (λ t, t.1 ≠ id) (λ t, t.1 ≠ id)).
  - by rewrite Hid.
Qed.

(** ** What no event changes *)

Lemma deck_step_total s s' :
  deck_step s s' → totalSlides s' = totalSlides s.
Proof. by intros [(_ & _ & _ & ->)|(k & (_ & _ & _ & ->) & _)]. Qed.

(** X4. The shape of the deck is fixed at construction: in every reachable
    state the numbers of slides and dots are those of the page, and
    totalSlides is the number of slides. *)
Theorem deck_shape_fixed (doc : Document) (s : RibbonSlider) :
  reachable doc s →
  length (slides s) = length (ribbon_items doc) ∧
  length (dots s) = length (nav_dots doc) ∧
  totalSlides s = of_index (length (slides s)).
Proof.
  induction 1 as [|s ev _ (IHs & IHd & IHt)]; [by rewrite constructor_eq|].
  pose proof (dispatch_step ev s) as Hstep.
  destruct (deck_step_sizes _ _ Hstep) as [Hs Hd].
  rewrite Hs, Hd, (deck_step_total _ _ Hstep). done.
Qed.

Lemma deck_shape_fixed_witness :
  let s := exec (dispatch (Click 1)) (constructor page_with_extra_dots).2 in
  length (slides s) = 2 ∧ length (dots s) = 4 ∧ totalSlides s = Int 2.
Proof.
  apply (deck_shape_fixed page_with_extra_dots).
  apply reach_event, reach_new.
Defined.

Lemma contains_markSlide_other t slideIndex index slide :
  t ∉ ["active"; "prev"; "next"] →
  ClassList.contains t (markSlide slideIndex index slide)
  = ClassList.contains t slide.
Proof.
  intros Ht. pose proof (slideToken_in slideIndex index) as Hin.
  rewrite markSlide_eq. apply eq_true_iff_eq.
  rewrite !contains_true, elem_of_app, list_elem_of_singleton.
  rewrite <- !contains_true, contains_remove, andb_true_iff,
    bool_decide_eq_true.
  split; [|tauto]. intros [[? _]| ->]; [done|]. by destruct Ht.
Qed.

Lemma contains_markDot_other t slideIndex index dot :
  t ≠ "active" →
  ClassList.contains t (markDot slideIndex index dot)
  = ClassList.contains t dot.
Proof.
  intros Ht. unfold markDot, ClassList.toggle.
  destruct (js_strict_eq _ _).
  - rewrite contains_add. rewrite (bool_decide_eq_false_2 (t = "active")) by done.
    apply orb_false_r.
  - rewrite contains_remove.
    rewrite (bool_decide_eq_true_2 (t ∉ ["active"])).
    + apply andb_true_r.
    + by rewrite list_elem_of_singleton.
Qed.

Lemma same_foreign_refl l own : same_foreign l l own.
Proof. intros i cl Hi. by exists cl. Qed.

Lemma same_foreign_trans l1 l2 l3 own :
  same_foreign l1 l2 own → same_foreign l2 l3 own → same_foreign l1 l3 own.
Proof.
  intros H12 H23 i cl3 Hi.
  destruct (H23 i cl3 Hi) as (cl2 & H2 & Ht2).
  destruct (H12 i cl2 H2) as (cl1 & H1 & Ht1).
  exists cl1. split; [done|]. intros t Ht. by rewrite Ht2, Ht1.
Qed.

Lemma shown_foreign k s :
  same_foreign (slides s) (slides (shown k s)) ["active"; "prev"; "next"] ∧
  same_foreign (dots s) (dots (shown k s)) ["active"].
Proof.
  split; intros i cl'; simpl; rewrite list_lookup_imap.
  - destruct (slides s !! i) as [cl|]; simpl; [|done].
    intros [= <-]. exists cl. split; [done|].
    intros t Ht. by apply contains_markSlide_other.
  - destruct (dots s !! i) as [cl|]; simpl; [|done].
    intros [= <-]. exists cl. split; [done|].
    intros t Ht. apply contains_markDot_other.
    by rewrite list_elem_of_singleton in Ht.
Qed.

(** X5. The slider only ever writes its own classes.  In every reachable
    state each slide has, apart from 'active', 'prev' and 'next', exactly
    the classes it had in the page, and each dot has, apart from 'active',
    exactly the classes it had in the page. *)
Theorem foreign_classes_kept (doc : Document) (s : RibbonSlider) :
  reachable doc s →
  same_foreign (ribbon_items doc) (slides s) ["active"; "prev"; "next"] ∧
  same_foreign (nav_dots doc) (dots s) ["active"].
Proof.
  induction 1 as [|s ev _ [IHs IHd]].
  - rewrite constructor_eq. split; apply same_foreign_refl.
  - destruct (dispatch_step ev s)
      as [(_ & -> & -> & _)|(k & (_ & -> & -> & _) & _)]; [done|].
    destruct (shown_foreign k s) as [Hs Hd].
    split; eapply same_foreign_trans; eauto.
Qed.

Lemma foreign_classes_kept_witness :
  let s := exec (dispatch (Keydown "ArrowRight")) (constructor demo_page).2 in
  same_foreign (ribbon_items demo_page) (slides s) ["active"; "prev"; "next"].
Proof.
  apply (foreign_classes_kept demo_page).
  apply reach_event, reach_new.
Defined.

(** ** Indices in range *)

Lemma deck_step_in_range s s' :
  well_formed s → length (dots s) ≤ length (slides s) →
  deck_step s s' → well_formed s'.
Proof.
  intros Hwf Hdots [Hsame|(k & Hsame & Hk)];
    [by apply (well_formed_same_deck s)|].
  apply (well_formed_same_deck _ _ Hsame).
  pose proof Hwf as (Ht & c & Hc & Hlt).
  assert (Hmod : ∀ n, n mod length (slides s) < length (slides s))
    by (intros n; apply Nat.mod_upper_bound; lia).
  destruct Hk as [->|[->|(d & Hd & ->)]].
  - unfold next_of. rewrite Hc, Ht, next_index by lia.
    by apply shown_well_formed.
  - unfold prev_of. rewrite Hc, Ht, prev_index by lia.
    by apply shown_well_formed.
  - apply shown_well_formed; [done|lia].
Qed.

(** X6. On a page with at least one slide and no more dots than slides,
    currentSlide is a valid slide index in every reachable state: no event
    can take it out of range or make it NaN. *)
Theorem currentSlide_in_range (doc : Document) (s : RibbonSlider) :
  1 ≤ length (ribbon_items doc) →
  length (nav_dots doc) ≤ length (ribbon_items doc) →
  reachable doc s →
  ∃ c, currentSlide s = of_index c ∧ c < length (slides s).
Proof.
  intros HN Hdots Hr.
  assert (Hwf : well_formed s); [|by destruct Hwf as [_ ?]].
  induction Hr as [|s ev Hr IH].
  - rewrite constructor_eq. split; [done|]. exists 0. split; [done|simpl; lia].
  - destruct (reachable_sizes doc s Hr) as [Hls Hld].
    apply (deck_step_in_range s); [done|lia|apply dispatch_step].
Qed.

Lemma currentSlide_in_range_witness :
  let s := exec (dispatch (TimerFire 1))
             (exec (dispatch (Click 2)) (constructor demo_page).2) in
  ∃ c, currentSlide s = of_index c ∧ c < length (slides s).
Proof.
  apply (currentSlide_in_range demo_page).
  - simpl. lia.
  - simpl. lia.
  - apply reach_event, reach_event, reach_new.
Defined.

(** ** Recovery from an index out of range *)

Lemma rem_in_range (z : Z) (N : nat) :
  (0 ≤ z)%Z → 1 ≤ N →
  js_rem (Int z) (of_index N) = of_index (Z.to_nat (z mod Z.of_nat N)) ∧
  Z.to_nat (z mod Z.of_nat N) < N.
Proof.
  intros Hz HN. unfold js_rem, of_index.
  destruct (Z.eqb_spec (Z.of_nat N) 0); [lia|].
  pose proof (Z.mod_pos_bound z (Z.of_nat N) ltac:(lia)) as Hb.
  split; [|lia].
  f_equal. rewrite Z.rem_mod_nonneg by lia. lia.
Qed.

(** X7. An index beyond the last slide does not stick.  From any state
    whose currentSlide is a non-negative integer, in range or not, one
    nextSlide or one prevSlide brings currentSlide back into range and
    re-establishes the deck invariant (the page has at least one slide and
    at least one dot per slide). *)
Theorem advance_recovers (s : RibbonSlider) (c : Z) :
  currentSlide s = Int c → (0 ≤ c)%Z →
  totalSlides s = of_index (length (slides s)) →
  1 ≤ length (slides s) → length (slides s) ≤ length (dots s) →
  (deck_invariant (exec nextSlide s) ∧ well_formed (exec nextSlide s)) ∧
  (deck_invariant (exec prevSlide s) ∧ well_formed (exec prevSlide s)).
Proof.
  intros Hc Hpos Ht HN Hdots.
  assert (Hwf : ∀ k, k < length (slides s) → well_formed (shown (of_index k) s)).
  { intros k Hk. split; simpl; rewrite length_imap; [done|by exists k]. }
  split.
  - unfold exec. rewrite nextSlide_goTo. unfold next_of.
    rewrite Hc, Ht. simpl js_add.
    destruct (rem_in_range (c + 1) (length (slides s))) as [-> Hlt]; [lia..|].
    split; [apply shown_invariant; lia|by apply Hwf].
  - unfold exec. rewrite prevSlide_goTo. unfold prev_of.
    rewrite Hc, Ht. simpl js_add.
    destruct (rem_in_range (c - 1 + Z.of_nat (length (slides s)))
                (length (slides s))) as [-> Hlt]; [lia..|].
    split; [apply shown_invariant; lia|by apply Hwf].
Qed.

Lemma advance_recovers_witness :
  let s := exec (dispatch (Click 3)) (constructor page_with_extra_dots).2 in
  currentSlide s = Int 3 ∧
  deck_invariant (exec nextSlide s) ∧ deck_invariant (exec prevSlide s).
Proof.
  intros s. split; [reflexivity|].
  assert (H : (deck_invariant (exec nextSlide s) ∧ well_formed (exec nextSlide s)) ∧
              (deck_invariant (exec prevSlide s) ∧ well_formed (exec prevSlide s))).
  { apply (advance_recovers s 3); [reflexivity|lia|reflexivity|simpl; lia..]. }
  tauto.
Defined.

(** ** Zero slides *)

Lemma js_rem_zero (x : number) : js_rem x (Int 0) = NaN.
Proof. by destruct x. Qed.

Lemma shown_nan_dots s j cl :
  dots (shown NaN s) !! j = Some cl → ClassList.contains "active" cl = false.
Proof.
  simpl. rewrite list_lookup_imap.
  destruct (dots s !! j); simpl; [|done].
  intros [= <-]. apply contains_toggle.
Qed.

(** X8. With zero slides the wraparound divides by zero.  After any
    non-empty run of nextSlide and prevSlide calls currentSlide is NaN
    and no dot is selected; nothing throws. *)
Theorem zero_slides_nan (s : RibbonSlider) (cs : list call) :
  totalSlides s = Int 0 →
  cs ≠ [] → Forall (λ c, is_goto c = false) cs →
  outcome (run_calls cs) s = Normal tt ∧
  currentSlide (exec (run_calls cs) s) = NaN ∧
  (∀ j cl, dots (exec (run_calls cs) s) !! j = Some cl →
     ClassList.contains "active" cl = false).
Proof.
  revert s. induction cs as [|c cs IH]; intros s Ht Hne Hcs; [done|].
  apply Forall_cons in Hcs as [Hc Hcs].
  assert (Hrun : run_call c s = (Normal tt, shown NaN s)).
  { destruct c as [d| |]; [done| |]; simpl.
    - rewrite nextSlide_goTo. unfold next_of. by rewrite Ht, js_rem_zero.
    - rewrite prevSlide_goTo. unfold prev_of. by rewrite Ht, js_rem_zero. }
  unfold outcome, exec. simpl. rewrite (bind_normal _ _ _ _ Hrun).
  destruct cs as [|c' cs].
  - simpl. split; [done|]. split; [done|]. apply shown_nan_dots.
  - by apply (IH (shown NaN s)).
Qed.

Lemma zero_slides_nan_witness :
  let s := (constructor page_without_slides).2 in
  currentSlide (exec (run_calls [NextSlide; PrevSlide]) s) = NaN.
Proof.
  intros s. apply (zero_slides_nan s [NextSlide; PrevSlide]).
  - reflexivity.
  - discriminate.
  - repeat apply Forall_cons_2; try reflexivity. apply Forall_nil_2.
Defined.

(** ** Dot clicks and keys *)

Lemma shows_same_deck s s' k : same_deck s s' → shows s k → shows s' k.
Proof. intros (Hc & Hs & Hd & _). unfold shows. by rewrite Hc, Hs, Hd. Qed.

(** X9. A click on dot d shows slide d directly, from any state: after
    the click currentSlide is d, the slides before d are 'prev', those
    after it 'next', slide d alone is 'active' and dot d alone is
    selected.  This holds even when the handler ends in a TypeError
    because the page has no progress bar. *)
Theorem dot_click_shows (s : RibbonSlider) (d : nat) :
  d < length (dots s) →
  shows (exec (dispatch (Click d)) s) d ∧
  (d < length (slides s) → deck_invariant (exec (dispatch (Click d)) s)).
Proof.
  intros Hd.
  assert (Hdeck : same_deck (shown (of_index d) s) (exec (dispatch (Click d)) s)).
  { unfold exec, dispatch, bind at 1, gets.
    rewrite bool_decide_eq_true_2 by done.
    unfold dotClick. slide_step. apply restartAutoPlay_deck. }
  split.
  - apply (shows_same_deck _ _ _ Hdeck), shown_shows.
  - intros Hs. apply (deck_invariant_same_deck _ _ Hdeck).
    by apply shown_invariant.
Qed.

Lemma dot_click_shows_witness :
  let s := (constructor page_without_progress).2 in
  outcome (dispatch (Click 2)) s = Throw TypeError ∧
  shows (exec (dispatch (Click 2)) s) 2 ∧
  deck_invariant (exec (dispatch (Click 2)) s).
Proof.
  intros s. split; [reflexivity|].
  assert (Hd : 2 < length (dots s)) by (simpl; lia).
  destruct (dot_click_shows s 2 Hd) as [Hshows Hinv].
  split; [exact Hshows|]. apply Hinv. simpl. lia.
Defined.

Lemma keydown_right s c N :
  currentSlide s = of_index c → totalSlides s = of_index N → 1 ≤ N →
  same_deck (shown (of_index ((c + 1) mod N)) s)
    (exec (dispatch (Keydown "ArrowRight")) s).
Proof.
  intros Hc Ht HN. unfold exec, dispatch, handleKeydown. simpl.
  rewrite (bind_normal _ _ _ _ (nextSlide_eq s c N Hc Ht HN)).
  apply restartAutoPlay_deck.
Qed.

Lemma keydown_left s c N :
  currentSlide s = of_index c → totalSlides s = of_index N → 1 ≤ N →
  same_deck (shown (of_index ((c + N - 1) mod N)) s)
    (exec (dispatch (Keydown "ArrowLeft")) s).
Proof.
  intros Hc Ht HN. unfold exec, dispatch, handleKeydown. simpl.
  rewrite (bind_normal _ _ _ _ (prevSlide_eq s c N Hc Ht HN)).
  apply restartAutoPlay_deck.
Qed.

(** X10. Keyboard navigation.  In a slider with N ≥ 1 slides and a current
    index in range, ArrowRight followed by ArrowLeft, and ArrowLeft
    followed by ArrowRight, show the slide that was current before, also
    when the handlers throw for want of a progress bar.  Every other key
    is ignored: nothing changes and nothing is thrown. *)
Theorem keyboard_navigation (s : RibbonSlider) (c : nat) :
  totalSlides s = of_index (length (slides s)) →
  1 ≤ length (slides s) →
  currentSlide s = of_index c → c < length (slides s) →
  shows (exec (dispatch (Keydown "ArrowLeft"))
           (exec (dispatch (Keydown "ArrowRight")) s)) c ∧
  shows (exec (dispatch (Keydown "ArrowRight"))
           (exec (dispatch (Keydown "ArrowLeft")) s)) c ∧
  (∀ key, key ≠ "ArrowLeft" → key ≠ "ArrowRight" →
     dispatch (Keydown key) s = (Normal tt, s)).
Proof.
  intros Ht HN Hc Hlt. set (N := length (slides s)) in *.
  assert (Hmod : ∀ n, n mod N < N)
    by (intros n; apply Nat.mod_upper_bound; lia).
  split; [|split].
  - pose proof (keydown_right s c N Hc Ht HN) as (Hc1 & _ & _ & Ht1).
    simpl in Hc1, Ht1. rewrite Ht in Ht1.
    pose proof (keydown_left _ _ N Hc1 Ht1 HN) as Hdeck.
    rewrite next_prev_index in Hdeck by done.
    apply (shows_same_deck _ _ _ Hdeck), shown_shows.
  - pose proof (keydown_left s c N Hc Ht HN) as (Hc1 & _ & _ & Ht1).
    simpl in Hc1, Ht1. rewrite Ht in Ht1.
    pose proof (keydown_right _ _ N Hc1 Ht1 HN) as Hdeck.
    rewrite prev_next_index in Hdeck by done.
    apply (shows_same_deck _ _ _ Hdeck), shown_shows.
  - intros key Hl Hr. unfold dispatch, handleKeydown.
    rewrite (proj2 (String.eqb_neq _ _) Hl), (proj2 (String.eqb_neq _ _) Hr).
    reflexivity.
Qed.

Lemma keyboard_navigation_witness :
  let s := (constructor page_without_progress).2 in
  shows (exec (dispatch (Keydown "ArrowLeft"))
           (exec (dispatch (Keydown "ArrowRight")) s)) 0 ∧
  dispatch (Keydown "arrowleft") s = (Normal tt, s).
Proof.
  intros s.
  assert (HN : 1 ≤ length (slides s)) by (simpl; lia).
  assert (Hlt : 0 < length (slides s)) by (simpl; lia).
  pose proof (keyboard_navigation s 0 eq_refl HN eq_refl Hlt)
    as (Hrl & _ & Hother).
  split; [exact Hrl|]. apply Hother; discriminate.
Defined.

(** ** The progress bar's timeout *)

Lemma filter_none {A} (P : A → Prop) `{!∀ x, Decision (P x)} (l : list A) :
  (∀ x, x ∈ l → ¬ P x) → filter P l = [].
Proof.
  induction l as [|x l IH]; intros Hl; [done|].
  rewrite filter_cons_False by (apply Hl; left).
  apply IH. intros y Hy. apply Hl. by right.
Qed.

Lemma filter_all {A} (P : A → Prop) `{!∀ x, Decision (P x)} (l : list A) :
  (∀ x, x ∈ l → P x) → filter P l = l.
Proof.
  induction l as [|x l IH]; intros Hl; [done|].
  rewrite filter_cons_True by (apply Hl; left).
  f_equal. apply IH. intros y Hy. apply Hl. by right.
Qed.

Lemma restartAutoPlay_bar s a :
  progressBar s = Some a →
  restartAutoPlay s
  = (Normal tt,
     set_nextHandle (Pos.succ (Pos.succ (nextHandle s)))
       (set_timers
          ((timers (exec stopAutoPlay s) ++ [(nextHandle s, AutoAdvance)])
             ++ [(Pos.succ (nextHandle s), ProgressFill)])
          (set_progressBar (Some "none")
             (exec startAutoPlay (exec stopAutoPlay s))))).
Proof.
  intros Ha. rewrite restartAutoPlay_eq.
  assert (Hb : progressBar (exec startAutoPlay (exec stopAutoPlay s)) = Some a).
  { unfold exec. rewrite stopAutoPlay_eq.
    destruct (autoPlayInterval s); simpl; by rewrite Ha. }
  rewrite (restartProgressBar_some _ a Hb).
  unfold exec. rewrite stopAutoPlay_eq. by destruct (autoPlayInterval s).
Qed.

(** X11. The progress bar is re-armed in two steps.  On a page with a
    progress bar, restartAutoPlay sets its animation to 'none' and
    schedules one timeout; when that timeout fires the animation becomes
    'progressFill 5000ms linear infinite', the timeout is gone, and the
    slides and the scheduled advances are as before; a second firing of
    the same handle does nothing.  (The handle of the timeout is fresh:
    no timer of the page uses it yet.) *)
Theorem progress_bar_rearmed (s : RibbonSlider) (a : string) :
  progressBar s = Some a →
  (∀ t, t ∈ timers s → t.1 ≠ Pos.succ (nextHandle s)) →
  let id := Pos.succ (nextHandle s) in
  let s1 := exec restartAutoPlay s in
  let s2 := exec (dispatch (TimerFire id)) s1 in
  (outcome restartAutoPlay s = Normal tt ∧
   progressBar s1 = Some "none" ∧ (id, ProgressFill) ∈ timers s1) ∧
  (outcome (dispatch (TimerFire id)) s1 = Normal tt ∧
   progressBar s2 = Some progressFillAnimation ∧
   (∀ cb, (id, cb) ∉ timers s2) ∧
   same_deck s1 s2 ∧ pending_advances s2 = pending_advances s1) ∧
  dispatch (TimerFire id) s2 = (Normal tt, s2).
Proof.
  intros Ha Hfresh id s1 s2.
  set (T0 := timers (exec stopAutoPlay s)).
  assert (HT0 : ∀ t, t ∈ T0 → t.1 ≠ id).
  { intros t. unfold T0, exec. rewrite stopAutoPlay_eq.
    destruct (autoPlayInterval s); simpl; [|apply Hfresh].
    rewrite list_elem_of_filter. intros [_ Hin]. by apply Hfresh. }
  assert (Hs1 : restartAutoPlay s = (Normal tt, s1)).
  { unfold s1, exec. by rewrite (restartAutoPlay_bar s a Ha). }
  assert (Ht1 : timers s1 = (T0 ++ [(nextHandle s, AutoAdvance)])
                            ++ [(id, ProgressFill)]).
  { unfold s1, exec. by rewrite (restartAutoPlay_bar s a Ha). }
  assert (Hb1 : progressBar s1 = Some "none").
  { unfold s1, exec. by rewrite (restartAutoPlay_bar s a Ha). }
  assert (Hsel : filter (λ t, t.1 = id) (timers s1) = [(id, ProgressFill)]).
  { rewrite Ht1, !filter_app.
    rewrite (filter_none _ T0) by (intros t Ht; by apply HT0).
    rewrite filter_cons_False by (simpl; unfold id; lia).
    by rewrite filter_cons_True. }
  assert (Hrest : filter (λ t, t.1 ≠ id) (timers s1)
                  = T0 ++ [(nextHandle s, AutoAdvance)]).
  { rewrite Ht1, !filter_app.
    rewrite (filter_all _ T0) by done.
    rewrite filter_cons_True by (simpl; unfold id; lia).
    rewrite (filter_cons_False _ (id, ProgressFill)) by (simpl; tauto).
    by rewrite app_nil_r. }
  assert (Hfire : dispatch (TimerFire id) s1
    = (Normal tt,
       set_progressBar (Some progressFillAnimation)
         (set_timers (T0 ++ [(nextHandle s, AutoAdvance)]) s1))).
  { unfold dispatch, timerFire, bind at 1, gets. rewrite Hsel.
    rewrite (bind_normal _ _ _ _ (clearInterval_eq id s1)), Hrest.
    unfold bind, gets, modify. simpl. by rewrite Hb1. }
  assert (Hs2 : s2 = set_progressBar (Some progressFillAnimation)
                       (set_timers (T0 ++ [(nextHandle s, AutoAdvance)]) s1)).
  { unfold s2, exec. by rewrite Hfire. }
  assert (Ht2 : timers s2 = T0 ++ [(nextHandle s, AutoAdvance)])
    by (by rewrite Hs2).
  split; [|split].
  - split; [unfold outcome; by rewrite Hs1|]. split; [done|].
    rewrite Ht1, elem_of_app, list_elem_of_singleton. tauto.
  - split; [unfold outcome; by rewrite Hfire|].
    split; [by rewrite Hs2|]. split; [|split].
    + intros cb. rewrite Ht2, elem_of_app, list_elem_of_singleton.
      intros [Hin|[= Hid _]]; [by apply HT0 in Hin|].
      unfold id in Hid. lia.
    + rewrite Hs2. by repeat split.
    + unfold pending_advances. rewrite Ht2, Ht1.
      rewrite (filter_app _ (T0 ++ _) [_]), length_app.
      rewrite filter_cons_False by done. simpl. lia.
  - unfold dispatch, timerFire, bind at 1, gets.
    rewrite Ht2, filter_app.
    rewrite (filter_none _ T0) by (intros t Ht; by apply HT0).
    rewrite filter_cons_False by (simpl; unfold id; lia).
    reflexivity.
Qed.

Lemma progress_bar_rearmed_witness :
  let s := (constructor demo_page).2 in
  let s1 := exec restartAutoPlay s in
  progressBar s1 = Some "none" ∧
  progressBar (exec (dispatch (TimerFire 3)) s1) = Some progressFillAnimation.
Proof.
  intros s s1.
  assert (Hfresh : ∀ t, t ∈ timers s → t.1 ≠ Pos.succ (nextHandle s)).
  { intros t Hin. vm_compute in Hin.
    apply list_elem_of_singleton in Hin. subst t. vm_compute. discriminate. }
  pose proof (progress_bar_rearmed s "" eq_refl Hfresh)
    as ((_ & Hnone & _) & (_ & Hfill & _) & _).
  split; [exact Hnone|exact Hfill].
Defined.

(** ** ScrollAnimations *)

Lemma contains_toggle_other t u b cl :
  t ≠ u →
  ClassList.contains t (ClassList.toggle u b cl) = ClassList.contains t cl.
Proof.
  intros Ht. unfold ClassList.toggle. destruct b.
  - rewrite contains_add, (bool_decide_eq_false_2 (t = u)) by done.
    apply orb_false_r.
  - rewrite contains_remove, (bool_decide_eq_true_2 (t ∉ [u])).
    + apply andb_true_r.
    + by rewrite list_elem_of_singleton.
Qed.

Lemma callback_snoc entries entry elements :
  ScrollAnimations.callback (entries ++ [entry]) elements
  = alter (ScrollAnimations.reveal entry) (target entry)
      (ScrollAnimations.callback entries elements).
Proof. unfold ScrollAnimations.callback. by rewrite foldl_snoc. Qed.

(** X12. The observer callback reveals by the last word.  After a batch
    of entries every element has 'revealed' exactly when the last entry
    for it in the batch was intersecting; an element without an entry
    keeps 'revealed' as it was; no other class of any element changes and
    no element is added or removed. *)
Theorem reveal_last_entry_wins
    (entries : list IntersectionObserverEntry) (elements : list classList) :
  length (ScrollAnimations.callback entries elements) = length elements ∧
  ∀ i cl, elements !! i = Some cl →
    ∃ cl', ScrollAnimations.callback entries elements !! i = Some cl' ∧
      (∀ t, t ≠ "revealed" →
         ClassList.contains t cl' = ClassList.contains t cl) ∧
      ClassList.contains "revealed" cl'
      = match last (filter (λ e, target e = i) entries) with
        | Some e => isIntersecting e
        | None => ClassList.contains "revealed" cl
        end.
Proof.
  induction entries as [|entry entries IH] using rev_ind.
  - split; [done|]. intros i cl Hi. by exists cl.
  - destruct IH as [Hlen IH]. rewrite callback_snoc. split.
    + by rewrite length_alter.
    + intros i cl Hi. destruct (IH i cl Hi) as (cl1 & H1 & Hother & Hrev).
      rewrite filter_app.
      destruct (decide (target entry = i)) as [He|Hne].
      * exists (ScrollAnimations.reveal entry cl1). subst i.
        rewrite list_lookup_alter_eq, H1. split; [done|].
        rewrite filter_singleton_True, last_snoc by done.
        split.
        -- intros t Ht. rewrite <- (Hother t Ht).
           by apply (contains_toggle_other t "revealed").
        -- apply (contains_toggle "revealed").
      * exists cl1.
        rewrite list_lookup_alter_ne, filter_singleton_False, app_nil_r by done.
        done.
Qed.

Lemma reveal_last_entry_wins_witness :
  let elements := [["hero"]; ["scroll-reveal"; "revealed"]; ["scroll-reveal"]] in
  let entries := [mkEntry 0 true; mkEntry 1 false; mkEntry 0 false;
                  mkEntry 0 true] in
  ∃ cl', ScrollAnimations.callback entries elements !! 0 = Some cl' ∧
         ClassList.contains "hero" cl' = true ∧
         ClassList.contains "revealed" cl' = true.
Proof.
  intros elements entries.
  destruct (reveal_last_entry_wins entries elements) as [_ H].
  destruct (H 0 ["hero"] eq_refl) as (cl' & Hcl' & Hother & Hrev).
  exists cl'. split; [exact Hcl'|]. split.
  - rewrite Hother by discriminate. reflexivity.
  - rewrite Hrev. reflexivity.
Defined.

(** ** CounterAnimations *)

Section CounterText.
Import JSString.

Lemma append_cons c (a b : string) : String c a +:+ b = String c (a +:+ b).
Proof. reflexivity. Qed.

Lemma startsWith_cons a pattern b text :
  startsWith (String a pattern) (String b text)
  = if Ascii.eqb a b then startsWith pattern text else false.
Proof. reflexivity. Qed.

Lemma includes_cons pattern c rest :
  includes pattern (String c rest)
  = if startsWith pattern (String c rest) then true
    else includes pattern rest.
Proof. reflexivity. Qed.

Lemma replace_cons pattern replacement c rest :
  replace pattern replacement (String c rest)
  = if startsWith pattern (String c rest) then
      replacement +:+ skip (String.length pattern) (String c rest)
    else String c (replace pattern replacement rest).
Proof. reflexivity. Qed.

Lemma no_plus_cons c rest :
  includes "+" (String c rest) = false →
  Ascii.eqb "+"%char c = false ∧ includes "+" rest = false.
Proof.
  rewrite includes_cons, startsWith_cons.
  by destruct (Ascii.eqb _ c).
Qed.

Lemma startsWith_plus pre :
  includes "+" pre = false → startsWith "+" pre = false.
Proof.
  destruct pre as [|c pre]; [done|].
  intros [Hc _]%no_plus_cons. by rewrite startsWith_cons, Hc.
Qed.

Lemma startsWith_plus_app pre rest :
  includes "+" pre = false →
  startsWith "+" (pre +:+ String "M"%char rest) = false.
Proof.
  destruct pre as [|c pre]; [done|].
  intros [Hc _]%no_plus_cons.
  by rewrite append_cons, startsWith_cons, Hc.
Qed.

Lemma startsWith_self pattern : startsWith pattern pattern = true.
Proof.
  induction pattern as [|a p IH]; [done|].
  by rewrite startsWith_cons, Ascii.eqb_refl.
Qed.

Lemma includes_self pattern : includes pattern pattern = true.
Proof.
  destruct pattern as [|a p]; [done|].
  by rewrite includes_cons, startsWith_self.
Qed.

Lemma includes_app_self pattern pre :
  includes pattern (pre +:+ pattern) = true.
Proof.
  induction pre as [|c pre IH].
  - apply includes_self.
  - rewrite append_cons, includes_cons, IH. by destruct (startsWith _ _).
Qed.

Lemma replace_Mplus pre :
  includes "+" pre = false → replace "M+" "" (pre +:+ "M+") = pre.
Proof.
  induction pre as [|c pre IH]; [done|].
  intros [Hc Hpre]%no_plus_cons.
  rewrite append_cons, replace_cons, startsWith_cons.
  rewrite (startsWith_plus_app pre "+" Hpre), IH by done.
  by destruct (Ascii.eqb "M"%char c).
Qed.

Lemma replace_plus pre :
  includes "+" pre = false → replace "+" "" (pre +:+ "+") = pre.
Proof.
  induction pre as [|c pre IH]; [done|].
  intros [Hc Hpre]%no_plus_cons.
  by rewrite append_cons, replace_cons, startsWith_cons, Hc, IH.
Qed.

Lemma no_plus_no_Mplus pre :
  includes "+" pre = false → includes "M+" pre = false.
Proof.
  induction pre as [|c pre IH]; [done|].
  intros [Hc Hpre]%no_plus_cons.
  rewrite includes_cons, startsWith_cons, (startsWith_plus pre Hpre), IH
    by done.
  by destruct (Ascii.eqb "M"%char c).
Qed.

Lemma no_Mplus_before_plus pre :
  includes "+" pre = false → (∀ p, pre ≠ p +:+ "M") →
  includes "M+" (pre +:+ "+") = false.
Proof.
  induction pre as [|c pre IH]; [done|].
  intros [Hc Hpre]%no_plus_cons Hend.
  assert (Htail : includes "M+" (pre +:+ "+") = false).
  { apply IH; [done|]. intros p ->. by apply (Hend (String c p)). }
  rewrite append_cons, includes_cons, startsWith_cons, Htail.
  destruct (Ascii.eqb_spec "M"%char c) as [<-|_]; [|done].
  destruct pre as [|d pre]; [by destruct (Hend "")|].
  apply no_plus_cons in Hpre as [Hd _].
  by rewrite append_cons, startsWith_cons, Hd.
Qed.

(** X13. parseCounterText splits a counter text into the text it hands to
    parseInt and a suffix.  For a text without '+': followed by 'M+' the
    suffix is 'M+', followed by '+' it is '+' (unless the text ends in
    'M', which makes the suffix 'M+'), and on its own the suffix is empty;
    in all three cases parseInt receives exactly the text before the
    suffix. *)
Theorem parseCounterText_splits (parseInt : string → number) (pre : string) :
  includes "+" pre = false →
  parseCounterText parseInt (pre +:+ "M+")
  = {| targetNumber := parseInt pre; suffix := "M+" |} ∧
  ((∀ p, pre ≠ p +:+ "M") →
     parseCounterText parseInt (pre +:+ "+")
     = {| targetNumber := parseInt pre; suffix := "+" |}) ∧
  parseCounterText parseInt pre
  = {| targetNumber := parseInt pre; suffix := "" |}.
Proof.
  intros Hpre. unfold parseCounterText. split; [|split].
  - by rewrite includes_app_self, replace_Mplus.
  - intros Hend.
    by rewrite no_Mplus_before_plus, includes_app_self, replace_plus.
  - by rewrite no_plus_no_Mplus, Hpre.
Qed.

Lemma parseCounterText_splits_witness :
  let parseInt := λ text, if String.eqb text "500" then Int 500 else NaN in
  parseCounterText parseInt "500M+"
  = {| targetNumber := Int 500; suffix := "M+" |} ∧
  parseCounterText parseInt "500+"
  = {| targetNumber := Int 500; suffix := "+" |} ∧
  parseCounterText parseInt "500"
  = {| targetNumber := Int 500; suffix := "" |}.
Proof.
  intros parseInt.
  destruct (parseCounterText_splits parseInt "500" eq_refl) as (HM & Hp & H0).
  split; [exact HM|]. split; [|exact H0].
  apply Hp. intros p Heq.
  do 3 (destruct p as [|? p]; [discriminate Heq|];
        rewrite append_cons in Heq; injection Heq as _ Heq).
  destruct p; discriminate Heq.
Defined.
End CounterText.
